(** * RSA demonstration class (rsa.hpp): a shallow embedding and its properties

    The class [RSA] of [rsa.hpp] works on C++ [long long] values and on
    [std::string]s.  The embedding keeps the shape of the source:

    - a [long long] is an integer of [Z] in the range [min_ll .. max_ll];
      [+], [-], [*] and [<<] are followed by the two's-complement
      wrap-around [wrap], [/] and [%] truncate towards zero ([Z.quot],
      [Z.rem]) and fail on a zero divisor;
    - an [int] has 32 bits: a [size_t] given for an [int] parameter is
      reduced modulo [2 ^ 32] ([Int.of_size]);
    - a [std::string] is a [string] (a list of 8-bit characters), and a
      [std::stringstream] that is only read is the string of the characters
      still to be read;
    - a function that can stop without a value (a division by zero, an
      exception of [std::stoll]) returns an [outcome];
    - a loop over the characters of a string or down a counter is a
      structural recursion; any other loop runs on a step budget and
      answers [Fail FuelExhausted] if the budget runs out, which the
      theorems exclude by exhibiting the value returned (or the failure
      that stops the loop). *)

From Stdlib Require Import ZArith List String Ascii Bool Lia.
From Stdlib Require Zmod.
Import ListNotations.

Local Open Scope Z_scope.

(** ** Outcomes of fallible code *)

Inductive failure : Type :=
| DivisionByZero      (* [a / 0] or [a % 0] *)
| DivisionOverflow    (* [LLONG_MIN / -1] or [LLONG_MIN % -1] *)
| InvalidArgument     (* [std::invalid_argument] thrown by [std::stoll] *)
| OutOfRange          (* [std::out_of_range] thrown by [std::stoll] *)
| FuelExhausted.      (* the step budget of a loop of the model ran out *)

Inductive outcome (A : Type) : Type :=
| Ret (a : A)
| Fail (f : failure).

Arguments Ret {A} a.
Arguments Fail {A} f.

Definition bind {A B : Type} (c : outcome A) (k : A -> outcome B) : outcome B :=
  match c with
  | Ret a => k a
  | Fail f => Fail f
  end.

Notation "x <- c ;; k" := (bind c (fun x => k))
  (at level 61, c at next level, right associativity).

Definition returns {A : Type} (c : outcome A) : Prop := exists a, c = Ret a.

(** ** The [long long] type *)

Module LL.

Definition half : Z := Eval cbv in 2 ^ 63.
Definition mask : Z := Eval cbv in Z.ones 64.

Definition min_ll : Z := - half.
Definition max_ll : Z := half - 1.

Definition in_range (z : Z) : Prop := min_ll <= z <= max_ll.

(** Two's-complement reduction of a mathematical result to 64 bits: the
    low 64 bits of [z], read as a signed number. *)
Definition wrap (z : Z) : Z := Z.land (z + half) mask - half.

Definition add (a b : Z) : Z := wrap (a + b).
Definition sub (a b : Z) : Z := wrap (a - b).
Definition mul (a b : Z) : Z := wrap (a * b).

(** [a / b] and [a % b]: truncation towards zero. *)
Definition div (a b : Z) : outcome Z :=
  if b =? 0 then Fail DivisionByZero
  else if (a =? min_ll) && (b =? -1) then Fail DivisionOverflow
  else Ret (Z.quot a b).

Definition rem (a b : Z) : outcome Z :=
  if b =? 0 then Fail DivisionByZero
  else if (a =? min_ll) && (b =? -1) then Fail DivisionOverflow
  else Ret (Z.rem a b).

(** [a << k] for a count [0 <= k < 64]. *)
Definition shl (a k : Z) : Z := wrap (Z.shiftl a k).

(** [a >> k], the arithmetic right shift.  C++ gives a meaning to the
    counts [0 <= k < 64] only; for a larger count the model follows the
    64-bit shift instructions of x86-64 and AArch64, which use the low six
    bits of the count. *)
Definition shr (a k : Z) : Z := Z.shiftr a (Z.land k 63).

End LL.

(** ** The [int] type *)

Module Int.

Definition half : Z := Eval cbv in 2 ^ 31.
Definition mask : Z := Eval cbv in Z.ones 32.

Definition max_int : Z := half - 1.

(** The conversion of a [size_t] to [int], as when [token.length()] is
    passed for an [int] parameter: the value modulo [2 ^ 32], read as a
    signed number (the rule of C++20, and what GCC and Clang did before
    it). *)
Definition of_size (z : Z) : Z := Z.land (z + half) mask - half.

End Int.

(** ** Number theory primitives *)

(** The [for] loop of [isPrime]: [i] starts at 5 and advances by 6 while
    [i * i <= n]; it makes fewer than [sqrt n] rounds. *)
Fixpoint isPrime_loop (fuel : nat) (n i : Z) : outcome bool :=
  match fuel with
  | O => Fail FuelExhausted
  | S fuel' =>
      if LL.mul i i <=? n then
        r1 <- LL.rem n i ;;
        if r1 =? 0 then Ret false
        else
          r2 <- LL.rem n (LL.add i 2) ;;
          if r2 =? 0 then Ret false
          else isPrime_loop fuel' n (LL.add i 6)
      else Ret true
  end.

Definition isPrime (n : Z) : outcome bool :=
  if n <=? 1 then Ret false
  else if n <=? 3 then Ret true
  else
    r2 <- LL.rem n 2 ;;
    if r2 =? 0 then Ret false
    else
      r3 <- LL.rem n 3 ;;
      if r3 =? 0 then Ret false
      else isPrime_loop (Z.to_nat (Z.sqrt n)) n 5.

(** [range lo n] is the list [lo; lo + 1; ...] of length [n]. *)
Fixpoint range (lo : Z) (n : nat) : list Z :=
  match n with
  | O => []
  | S n' => lo :: range (lo + 1) n'
  end.

(** Reference oracle, following the words of the specification: trial
    division of [x] by the candidates [d], [d + 1], ... ([k] of them),
    stopping at the first divisor found; the candidates of [trial_division]
    are all [d] with [2 <= d] and [d * d <= x]. *)
Fixpoint no_divisor_from (x d : Z) (k : nat) : bool :=
  match k with
  | O => true
  | S k' => if x mod d =? 0 then false else no_divisor_from x (d + 1) k'
  end.

Definition trial_division (x : Z) : bool :=
  (2 <=? x) && no_divisor_from x 2 (Z.to_nat (Z.sqrt x - 1)).

(** [outcome_eqb c b] holds when [c] is the returned value [b]. *)
Definition outcome_eqb (c : outcome bool) (b : bool) : bool :=
  match c with
  | Ret b' => Bool.eqb b' b
  | Fail _ => false
  end.

(** The [while (a > 1)] loop of [modInverse]; the value is the final [x1].
    One round: [q = a / m; t = m; m = a % m; a = t; t = x0;
    x0 = x1 - q * x0; x1 = t].  Every round makes [|m|] smaller, so
    [|m| + 1] rounds are enough. *)
Fixpoint modInverse_loop (fuel : nat) (a m x0 x1 : Z) : outcome Z :=
  match fuel with
  | O => Fail FuelExhausted
  | S fuel' =>
      if 1 <? a then
        q <- LL.div a m ;;
        r <- LL.rem a m ;;
        modInverse_loop fuel' m r (LL.sub x1 (LL.mul q x0)) x0
      else Ret x1
  end.

Definition modInverse (a m : Z) : outcome Z :=
  let m0 := m in
  if m =? 1 then Ret 0
  else
    x1 <- modInverse_loop (S (Z.to_nat (Z.abs m))) a m 0 1 ;;
    Ret (if x1 <? 0 then LL.add x1 m0 else x1).

(** The [while (exp > 0)] loop of [modPow]; [exp & 1] is the low bit and
    [exp >>= 1] drops it.  A [long long] exponent has at most 63 value
    bits, hence the budget of 64 rounds in [modPow]. *)
Fixpoint modPow_loop (fuel : nat) (result base exp mod_ : Z) : outcome Z :=
  match fuel with
  | O => Fail FuelExhausted
  | S fuel' =>
      if 0 <? exp then
        result' <- (if Z.land exp 1 =? 0 then Ret result
                    else LL.rem (LL.mul result base) mod_) ;;
        base' <- LL.rem (LL.mul base base) mod_ ;;
        modPow_loop fuel' result' base' (Z.shiftr exp 1) mod_
      else Ret result
  end.

Definition modPow (base exp mod_ : Z) : outcome Z :=
  base' <- LL.rem base mod_ ;;
  modPow_loop 64 1 base' exp mod_.

(** Invariant of the loop of [modInverse] run on [(a0, m0)]: the
    coefficients [x0], [x1] have opposite signs, they express [m] and [a]
    as multiples of [a0] modulo [m0], and [|x0| * a + |x1| * m = m0]. *)
Definition inverse_invariant (a0 m0 a m x0 x1 : Z) : Prop :=
  0 < a /\ 0 <= m /\ Z.gcd a m = 1 /\
  ((x0 <= 0 <= x1 /\ - x0 * a + x1 * m = m0) \/
   (x1 <= 0 <= x0 /\ x0 * a - x1 * m = m0)) /\
  (m0 | x1 * a0 - a) /\ (m0 | x0 * a0 - m) /\ Z.abs x1 < m0.

(** ** The key pair and the cipher on numbers *)

(** The data members of the class. *)
Record RSA : Type := mkRSA {
  p : Z; q : Z; n : Z; phi : Z; e : Z; d : Z
}.

(** The constructor [RSA()], from the two values [p] and [q] that the calls
    of [generatePrime] returned: each is a value [num] drawn in
    [100 .. 1000] for which [isPrime num] holds. *)
Definition RSA_new (p q : Z) : outcome RSA :=
  let n := LL.mul p q in
  let phi := LL.mul (LL.sub p 1) (LL.sub q 1) in
  let e := 65537 in
  d <- modInverse e phi ;;
  Ret (mkRSA p q n phi e d).

(** What [generatePrime] can return: a draw of [dis(gen)], uniform in
    [100 .. 1000], that [isPrime] accepts. *)
Definition generated (num : Z) : Prop :=
  100 <= num <= 1000 /\ isPrime num = Ret true.

Definition getPublicKey (k : RSA) : Z * Z := (e k, n k).
Definition getPrivateKey (k : RSA) : Z * Z := (d k, n k).

Definition encrypt (k : RSA) (message : Z) : outcome Z :=
  modPow message (e k) (n k).

Definition decrypt (k : RSA) (ciphertext : Z) : outcome Z :=
  modPow ciphertext (d k) (n k).

(** ** Characters, strings and string streams *)

Definition code (c : ascii) : Z := Z.of_N (N_of_ascii c).

(** [std::isspace] in the classic locale: space, and [\t \n \v \f \r]. *)
Definition isspace (c : ascii) : bool :=
  (code c =? 32) || ((9 <=? code c) && (code c <=? 13)).

Definition isdigit (c : ascii) : bool := (48 <=? code c) && (code c <=? 57).

(** [static_cast<char>(z)]: the low eight bits. *)
Definition ll_to_char (z : Z) : ascii := ascii_of_N (Z.to_N (z mod 256)).

Definition digit_char (dgt : Z) : ascii := ascii_of_N (Z.to_N (48 + dgt)).

Definition space : string := String (ascii_of_N 32) EmptyString.

(** The state of a [std::stringstream] that is only read: the characters
    not consumed yet.  [ss >> token] skips white space, then takes the
    characters up to the next white space; it fails at the end of input. *)
Fixpoint skip_ws (ss : string) : string :=
  match ss with
  | EmptyString => EmptyString
  | String c rest => if isspace c then skip_ws rest else ss
  end.

Fixpoint read_word (ss : string) : string * string :=
  match ss with
  | EmptyString => (EmptyString, EmptyString)
  | String c rest =>
      if isspace c then (EmptyString, ss)
      else let (w, r) := read_word rest in (String c w, r)
  end.

Definition extract (ss : string) : option (string * string) :=
  match skip_ws ss with
  | EmptyString => None
  | String c rest => Some (read_word (String c rest))
  end.

(** [std::to_string(long long)]: the decimal digits, after a ['-'] for a
    negative value.  A [long long] has at most 19 digits. *)
Fixpoint digits_of (fuel : nat) (z : Z) (acc : string) : string :=
  match fuel with
  | O => acc
  | S fuel' =>
      let acc' := String (digit_char (z mod 10)) acc in
      if z <? 10 then acc' else digits_of fuel' (z / 10) acc'
  end.

Definition to_string (z : Z) : string :=
  if z <? 0 then String (ascii_of_N 45) (digits_of 20 (- z) EmptyString)
  else digits_of 20 z EmptyString.

(** [std::stoll(token)]: optional white space, an optional sign, then the
    longest run of decimal digits; [std::invalid_argument] when there is no
    digit, [std::out_of_range] when the value is no [long long]. *)
Fixpoint digits_value (acc : Z) (s : string) : Z :=
  match s with
  | EmptyString => acc
  | String c rest =>
      if isdigit c then digits_value (acc * 10 + (code c - 48)) rest else acc
  end.

Definition starts_with_digit (s : string) : bool :=
  match s with
  | EmptyString => false
  | String c _ => isdigit c
  end.

Definition stoll (token : string) : outcome Z :=
  let s := skip_ws token in
  let '(negative, body) :=
    match s with
    | String c rest =>
        if code c =? 45 then (true, rest)
        else if code c =? 43 then (false, rest)
        else (false, s)
    | EmptyString => (false, s)
    end in
  if starts_with_digit body then
    let v := digits_value 0 body in
    let v := if negative then - v else v in
    if (LL.min_ll <=? v) && (v <=? LL.max_ll) then Ret v else Fail OutOfRange
  else Fail InvalidArgument.

(** ** Codec layer *)

Section Platform.

(** Whether plain [char] is a signed type (x86-64) or not (AArch64). *)
Variable char_signed : bool.

(** [static_cast<long long>(c)], and the promotion of [c] to [int]. *)
Definition char_to_ll (c : ascii) : Z :=
  if char_signed && (128 <=? code c) then code c - 256 else code c.

Fixpoint binaryToLong_loop (binary : string) (result : Z) : Z :=
  match binary with
  | EmptyString => result
  | String bit rest =>
      binaryToLong_loop rest (Z.lor (LL.shl result 1) (char_to_ll bit - 48))
  end.

Definition binaryToLong (binary : string) : Z := binaryToLong_loop binary 0.

(** The loop [for (int i = bits - 1; i >= 0; --i)]; the argument [i1] is
    [i + 1], so the loop ends when it is [0].  It makes no round for
    [bits <= 0]; at [bits = INT_MIN], where C++ leaves [bits - 1]
    undefined, the model makes none either. *)
Fixpoint longToBinary_loop (num : Z) (i1 : nat) (result : string) : string :=
  match i1 with
  | O => result
  | S i =>
      let bit := if Z.land (LL.shr num (Z.of_nat i)) 1 =? 0
                 then ascii_of_N 48 else ascii_of_N 49 in
      longToBinary_loop num i (result ++ String bit EmptyString)
  end.

Definition longToBinary (num bits : Z) : string :=
  longToBinary_loop num (Z.to_nat bits) EmptyString.

(** ** Cipher on strings *)

(** The loop [for (char c : message)] of [encryptString]. *)
Fixpoint encryptString_loop (k : RSA) (message result : string)
  : outcome string :=
  match message with
  | EmptyString => Ret result
  | String c rest =>
      let m := char_to_ll c in
      encrypted <- encrypt k m ;;
      encryptString_loop k rest (result ++ (to_string encrypted ++ space))
  end.

Definition encryptString (k : RSA) (message : string) : outcome string :=
  encryptString_loop k message EmptyString.

(** The loop [while (ss >> token)] of [decryptString]; every round consumes
    at least one character of the stream, so one round more than the
    length of the input is enough. *)
Fixpoint decryptString_loop (fuel : nat) (k : RSA) (ss result : string)
  : outcome string :=
  match fuel with
  | O => Fail FuelExhausted
  | S fuel' =>
      match extract ss with
      | None => Ret result
      | Some (token, ss') =>
          num <- stoll token ;;
          decrypted <- decrypt k num ;;
          decryptString_loop fuel' k ss'
            (result ++ String (ll_to_char decrypted) EmptyString)
      end
  end.

Definition decryptString (k : RSA) (encrypted : string) : outcome string :=
  decryptString_loop (S (String.length encrypted)) k encrypted EmptyString.

(** The loops of [encryptHuffmanCodes] and [decryptHuffmanCodes];
    [token.length()], a [size_t], is converted to the [int] parameter
    [bits] of [longToBinary]. *)
Fixpoint encryptHuffmanCodes_loop (fuel : nat) (k : RSA) (ss result : string)
  : outcome string :=
  match fuel with
  | O => Fail FuelExhausted
  | S fuel' =>
      match extract ss with
      | None => Ret result
      | Some (token, ss') =>
          let tokenValue := binaryToLong token in
          encrypted <- encrypt k tokenValue ;;
          let encryptedBinary :=
            longToBinary encrypted
              (Int.of_size (Z.of_nat (String.length token))) in
          encryptHuffmanCodes_loop fuel' k ss'
            (result ++ (encryptedBinary ++ space))
      end
  end.

Definition encryptHuffmanCodes (k : RSA) (huffmanCodes : string)
  : outcome string :=
  encryptHuffmanCodes_loop (S (String.length huffmanCodes)) k huffmanCodes
    EmptyString.

Fixpoint decryptHuffmanCodes_loop (fuel : nat) (k : RSA) (ss result : string)
  : outcome string :=
  match fuel with
  | O => Fail FuelExhausted
  | S fuel' =>
      match extract ss with
      | None => Ret result
      | Some (token, ss') =>
          let num := binaryToLong token in
          decrypted <- decrypt k num ;;
          let decryptedBinary :=
            longToBinary decrypted
              (Int.of_size (Z.of_nat (String.length token))) in
          decryptHuffmanCodes_loop fuel' k ss'
            (result ++ (decryptedBinary ++ space))
      end
  end.

Definition decryptHuffmanCodes (k : RSA) (encrypted : string)
  : outcome string :=
  decryptHuffmanCodes_loop (S (String.length encrypted)) k encrypted
    EmptyString.

End Platform.

(** ** Reference notions used in the statements *)

Fixpoint all_chars (f : ascii -> bool) (s : string) : bool :=
  match s with
  | EmptyString => true
  | String c rest => f c && all_chars f rest
  end.

Definition is_bit (c : ascii) : bool := (code c =? 48) || (code c =? 49).

(** A string of ['0'] and ['1'] only. *)
Definition binary (s : string) : Prop := all_chars is_bit s = true.

(** The number a string of binary digits denotes, most significant digit
    first: the digit at distance [k] from the end weighs [2 ^ k]. *)
Fixpoint big_endian_value (s : string) : Z :=
  match s with
  | EmptyString => 0
  | String c rest =>
      (if code c =? 49 then 1 else 0) * 2 ^ Z.of_nat (String.length rest)
      + big_endian_value rest
  end.

Definition bit_char (b : bool) : ascii :=
  if b then ascii_of_N 49 else ascii_of_N 48.

(** A token of a stream: not empty and free of white space. *)
Definition is_token (t : string) : Prop :=
  t <> EmptyString /\ all_chars (fun c => negb (isspace c)) t = true.

(** A run of white space, possibly empty. *)
Definition blank (s : string) : Prop := all_chars isspace s = true.

(** The tokens that repeated extraction [ss >> token] yields until it
    fails. *)
Fixpoint tokens_loop (fuel : nat) (ss : string) : list string :=
  match fuel with
  | O => []
  | S fuel' =>
      match extract ss with
      | None => []
      | Some (token, ss') => token :: tokens_loop fuel' ss'
      end
  end.

Definition tokens (ss : string) : list string :=
  tokens_loop (S (String.length ss)) ss.

(** A loop [while (ss >> token) result += body(token)] seen as a fold over the
    tokens. *)
Fixpoint fold_tokens (body : string -> outcome string) (ts : list string)
    (result : string) : outcome string :=
  match ts with
  | [] => Ret result
  | t :: ts' => piece <- body t ;; fold_tokens body ts' (result ++ piece)
  end.

(** Serialisation of a token sequence, each token followed by its own
    separator. *)
Fixpoint join (pieces : list (string * string)) : string :=
  match pieces with
  | [] => EmptyString
  | (t, sep) :: more => t ++ (sep ++ join more)
  end.

(** Every separator is white space, and only the last one may be empty. *)
Fixpoint well_spaced (pieces : list (string * string)) : Prop :=
  match pieces with
  | [] => True
  | (t, sep) :: more =>
      is_token t /\ blank sep /\ (sep = EmptyString -> more = []) /\
      well_spaced more
  end.

(** The tokens separated by single spaces, without and with a trailing
    space. *)
Fixpoint single_spaced (ts : list string) : string :=
  match ts with
  | [] => EmptyString
  | [t] => t
  | t :: more => t ++ (space ++ single_spaced more)
  end.

Fixpoint space_terminated (ts : list string) : string :=
  match ts with
  | [] => EmptyString
  | t :: more => t ++ (space ++ space_terminated more)
  end.

Definition starts_blank (s : string) : bool :=
  match s with
  | EmptyString => true
  | String c _ => isspace c
  end.

(** The loop bodies of the three stream loops, as functions of the token
    that give the piece appended to [result]. *)
Definition decryptString_body (k : RSA) (token : string) : outcome string :=
  num <- stoll token ;;
  decrypted <- decrypt k num ;;
  Ret (String (ll_to_char decrypted) EmptyString).

Definition encryptHuffmanCodes_body (char_signed : bool) (k : RSA)
    (token : string) : outcome string :=
  encrypted <- encrypt k (binaryToLong char_signed token) ;;
  Ret (longToBinary encrypted (Int.of_size (Z.of_nat (String.length token)))
       ++ space)%string.

Definition decryptHuffmanCodes_body (char_signed : bool) (k : RSA)
    (token : string) : outcome string :=
  decrypted <- decrypt k (binaryToLong char_signed token) ;;
  Ret (longToBinary decrypted (Int.of_size (Z.of_nat (String.length token)))
       ++ space)%string.

(** A Huffman code that the cipher can carry: binary digits, at most 64 of
    them, denoting a value below the modulus whose encryption still fits
    in as many bits. *)
Definition code_fits (k : RSA) (t : string) : Prop :=
  binary t /\ (String.length t <= 64)%nat /\
  big_endian_value t < n k /\
  forall c, encrypt k (big_endian_value t) = Ret c ->
            c < 2 ^ Z.of_nat (String.length t).

(** ** Key generation from explicit draws *)

(** [generatePrime], with the values that [dis(gen)] yields in its
    [while (true)] loop given as the list [draws]: the first draw that
    [isPrime] accepts is returned.  A list without such a draw stands for a
    run that is still looping after all of its draws. *)
Fixpoint generatePrime (draws : list Z) : outcome Z :=
  match draws with
  | [] => Fail FuelExhausted
  | num :: rest =>
      b <- isPrime num ;;
      if b then Ret num else generatePrime rest
  end.

(** The constructor [RSA()]: each call of [generatePrime] seeds a generator
    of its own, hence one list of draws per call. *)
Definition RSA_construct (draws_p draws_q : list Z) : outcome RSA :=
  p <- generatePrime draws_p ;;
  q <- generatePrime draws_q ;;
  RSA_new p q.

(** What [dis] can yield: [std::uniform_int_distribution<long long>(100, 1000)]. *)
Definition drawn (num : Z) : Prop := 100 <= num <= 1000.

(** The value an outcome returned, or [dflt] for a failure. *)
Definition value_or {A : Type} (dflt : A) (c : outcome A) : A :=
  match c with
  | Ret a => a
  | Fail _ => dflt
  end.

(** The widths of a sequence of tokens. *)
Definition widths (ts : list string) : list nat := map String.length ts.

(** A string that is empty or ends with a white-space character. *)
Fixpoint ends_blank (s : string) : bool :=
  match s with
  | EmptyString => true
  | String c EmptyString => isspace c
  | String _ rest => ends_blank rest
  end.

(** A token of [n] characters ['0']. *)
Fixpoint zeros (n : nat) : string :=
  match n with
  | O => EmptyString
  | S n' => String (ascii_of_N 48) (zeros n')
  end.
(** ** Properties of [isPrime] *)

Lemma outcome_eqb_true c b : outcome_eqb c b = true -> c = Ret b.
Proof.
  destruct c as [b'|f]; simpl; [|discriminate].
  intros H. apply eqb_prop in H. now subst.
Qed.

Lemma In_range x n : forall lo, lo <= x < lo + Z.of_nat n -> In x (range lo n).
Proof.
  induction n as [|n IH]; intros lo H; [lia|].
  simpl. destruct (Z.eq_dec lo x) as [->|Hne]; [now left|right].
  apply IH. lia.
Qed.

Lemma isPrime_small x : x <= 1 -> isPrime x = Ret false.
Proof.
  intros H. unfold isPrime.
  destruct (Z.leb_spec x 1); [reflexivity|lia].
Qed.

Lemma isPrime_agrees_upto_10000 :
  forallb (fun x => outcome_eqb (isPrime x) (trial_division x))
          (range 0 (Z.to_nat 10001)) = true.
Proof. vm_compute. reflexivity. Qed.

Lemma isPrime_trial_division x :
  0 <= x <= 10000 -> isPrime x = Ret (trial_division x).
Proof.
  intros Hx. apply outcome_eqb_true.
  pose proof isPrime_agrees_upto_10000 as H.
  rewrite forallb_forall in H. apply H. apply In_range. rewrite Z2Nat.id; lia.
Qed.

(** C3. [isPrime] answers false below 2, true at 2 and at 3, and agrees
    with the trial-division oracle on every integer of [0, 10000]. *)
Theorem C3_isPrime_trial_division :
  (forall x, x <= 1 -> isPrime x = Ret false) /\
  isPrime 2 = Ret true /\
  isPrime 3 = Ret true /\
  (forall x, 0 <= x <= 10000 -> isPrime x = Ret (trial_division x)).
Proof.
  split; [exact isPrime_small|].
  split; [reflexivity|]. split; [reflexivity|].
  exact isPrime_trial_division.
Qed.

Lemma C3_isPrime_trial_division_witness :
  isPrime (-7) = Ret false /\ isPrime 9973 = Ret (trial_division 9973).
Proof.
  split.
  - apply (proj1 C3_isPrime_trial_division (-7)). lia.
  - apply (proj2 (proj2 (proj2 C3_isPrime_trial_division)) 9973). lia.
Defined.

(** The oracle decides primality: trial division up to the square root
    agrees with [Z.prime] on every integer. *)
Lemma no_divisor_from_spec x k : forall lo,
  0 < lo ->
  (no_divisor_from x lo k = true <->
   forall c, lo <= c < lo + Z.of_nat k -> ~ (c | x)).
Proof.
  induction k as [|k IH]; intros lo Hlo.
  - simpl. split; [intros _ c Hc; lia|reflexivity].
  - cbn [no_divisor_from]. destruct (Z.eqb_spec (x mod lo) 0) as [Hz|Hnz].
    + split; [discriminate|]. intros H. exfalso. apply (H lo); [lia|].
      apply Z.mod_divide; [lia|exact Hz].
    + rewrite IH by lia. split; intros H c Hc.
      * destruct (Z.eq_dec c lo) as [->|Hne].
        -- intros Hd. apply Hnz. apply Z.mod_divide; [lia|exact Hd].
        -- apply H. lia.
      * apply H. lia.
Qed.

Lemma trial_division_prime x : trial_division x = true <-> Z.prime x.
Proof.
  unfold trial_division. rewrite andb_true_iff, Z.leb_le.
  split.
  - intros [Hx Hnd]. rewrite no_divisor_from_spec in Hnd by lia.
    pose proof (Z.sqrt_spec x ltac:(lia)) as Hsq.
    assert (Hs1 : 1 <= Z.sqrt x) by (apply Z.sqrt_le_square; lia).
    rewrite Z2Nat.id in Hnd by lia.
    split; [lia|]. intros c Hc [m Hm].
    assert (Hmr : 1 < m < x) by nia.
    destruct (Z_le_gt_dec c (Z.sqrt x)) as [Hle|Hgt].
    + apply (Hnd c); [lia|]. now exists m.
    + apply (Hnd m); [|exists c; lia].
      destruct (Z_le_gt_dec m (Z.sqrt x)) as [Hle'|Hgt']; [lia|].
      assert ((Z.sqrt x + 1) * (Z.sqrt x + 1) <= m * c)
        by (apply Z.mul_le_mono_nonneg; lia).
      cbv zeta in Hsq. unfold Z.succ in Hsq. lia.
  - intros [Hx Hp]. split; [lia|].
    apply no_divisor_from_spec; [lia|].
    pose proof (Z.sqrt_spec x ltac:(lia)) as Hsq.
    assert (Hs1 : 1 <= Z.sqrt x) by (apply Z.sqrt_le_square; lia).
    rewrite Z2Nat.id by lia. intros c Hc. apply Hp.
    assert (c * c <= Z.sqrt x * Z.sqrt x) by (apply Z.mul_le_mono_nonneg; lia).
    assert (2 * c <= c * c) by (apply Z.mul_le_mono_nonneg_r; lia).
    cbv zeta in Hsq. lia.
Qed.

(** ** Facts about [long long] arithmetic *)

Lemma wrap_mod z : LL.wrap z = (z + LL.half) mod 2 ^ 64 - LL.half.
Proof.
  unfold LL.wrap. change LL.mask with (Z.ones 64).
  now rewrite Z.land_ones by lia.
Qed.

Lemma wrap_in_range z : LL.in_range z -> LL.wrap z = z.
Proof.
  unfold LL.in_range, LL.min_ll, LL.max_ll. intros H. rewrite wrap_mod.
  unfold LL.half in *. rewrite Z.mod_small; lia.
Qed.

Lemma wrap_range z : LL.in_range (LL.wrap z).
Proof.
  rewrite wrap_mod. unfold LL.in_range, LL.min_ll, LL.max_ll, LL.half.
  pose proof (Z.mod_pos_bound (z + 9223372036854775808) (2 ^ 64)). lia.
Qed.

Lemma div_nonneg a b : 0 <= a -> 0 < b -> LL.div a b = Ret (a / b).
Proof.
  intros Ha Hb. unfold LL.div.
  destruct (Z.eqb_spec b 0); [lia|].
  destruct (Z.eqb_spec b (-1)); [lia|].
  rewrite andb_false_r, Z.quot_div_nonneg by lia. reflexivity.
Qed.

Lemma rem_nonneg a b : 0 <= a -> 0 < b -> LL.rem a b = Ret (a mod b).
Proof.
  intros Ha Hb. unfold LL.rem.
  destruct (Z.eqb_spec b 0); [lia|].
  destruct (Z.eqb_spec b (-1)); [lia|].
  rewrite andb_false_r, Z.rem_mod_nonneg by lia. reflexivity.
Qed.

Lemma rem_pos_divisor a b : 0 < b -> LL.rem a b = Ret (Z.rem a b).
Proof.
  intros Hb. unfold LL.rem.
  destruct (Z.eqb_spec b 0); [lia|].
  destruct (Z.eqb_spec b (-1)); [lia|].
  now rewrite andb_false_r.
Qed.

(** ** Properties of [modInverse] *)

Lemma gcd_step a m : 0 < m -> Z.gcd m (a mod m) = Z.gcd a m.
Proof.
  intros Hm. rewrite Z.gcd_comm, Z.gcd_mod by lia. apply Z.gcd_comm.
Qed.

Lemma inverse_invariant_step a0 m0 a m x0 x1 :
  0 < m0 <= LL.max_ll -> 1 < a ->
  inverse_invariant a0 m0 a m x0 x1 ->
  0 < m /\
  LL.sub x1 (LL.mul (a / m) x0) = x1 - a / m * x0 /\
  inverse_invariant a0 m0 m (a mod m) (x1 - a / m * x0) x0.
Proof.
  intros Hm0 Ha (Hpos & Hm & Hg & Hdet & Hd1 & Hd0 & Hx1).
  assert (Hmpos : 0 < m).
  { destruct (Z.eq_dec m 0) as [->|]; [|lia].
    rewrite Z.gcd_0_r in Hg. lia. }
  pose proof (Z.div_mod a m ltac:(lia)) as Hdm.
  pose proof (Z.mod_pos_bound a m Hmpos) as Hr.
  pose proof (Z.div_pos a m ltac:(lia) Hmpos) as Hq.
  set (q := a / m) in *. set (r := a mod m) in *.
  assert (Hnew : (x0 <= 0 <= x1 - q * x0 /\ (x1 - q * x0) * m - x0 * r = m0) \/
                 (x1 - q * x0 <= 0 <= x0 /\ - (x1 - q * x0) * m + x0 * r = m0)).
  { destruct Hdet as [[Hs He]|[Hs He]]; [left|right]; split; nia. }
  assert (Hb : Z.abs (x1 - q * x0) <= m0 /\ Z.abs (q * x0) <= m0).
  { destruct Hdet as [[Hs He]|[Hs He]]; destruct Hnew as [[Hs' He']|[Hs' He']];
      split; nia. }
  split; [exact Hmpos|]. split.
  - unfold LL.sub, LL.mul. unfold LL.max_ll, LL.half in Hm0.
    rewrite (wrap_in_range (q * x0)), wrap_in_range; auto;
      unfold LL.in_range, LL.min_ll, LL.max_ll, LL.half; lia.
  - unfold inverse_invariant.
    split; [lia|]. split; [lia|].
    split; [unfold r; now rewrite gcd_step|].
    split; [destruct Hnew as [H|H]; [right|left]; lia|].
    split; [exact Hd0|]. split.
    + replace ((x1 - q * x0) * a0 - r)
        with ((x1 * a0 - a) - q * (x0 * a0 - m)) by nia.
      apply Z.divide_sub_r; [exact Hd1|]. now apply Z.divide_mul_r.
    + destruct Hdet as [[Hs He]|[Hs He]]; nia.
Qed.

Lemma modInverse_loop_inverse a0 m0 :
  0 < m0 <= LL.max_ll ->
  forall fuel a m x0 x1,
    Z.abs m < Z.of_nat fuel ->
    inverse_invariant a0 m0 a m x0 x1 ->
    exists r, modInverse_loop fuel a m x0 x1 = Ret r /\
              Z.abs r < m0 /\ (m0 | r * a0 - 1).
Proof.
  intros Hm0. induction fuel as [|fuel IH]; intros a m x0 x1 Hfuel Hinv; [lia|].
  simpl. destruct (Z.ltb_spec 1 a) as [Ha|Ha].
  - destruct (inverse_invariant_step _ _ _ _ _ _ Hm0 Ha Hinv) as (Hm & Hsub & Hinv').
    destruct Hinv as (Hpos & _).
    rewrite div_nonneg, rem_nonneg by lia. simpl. rewrite Hsub.
    apply IH; [|exact Hinv'].
    pose proof (Z.mod_pos_bound a m Hm). lia.
  - destruct Hinv as (Hpos & _ & _ & _ & Hd1 & _ & Hx1).
    assert (a = 1) by lia. subst a. now exists x1.
Qed.

Lemma modInverse_correct a m :
  1 <= a -> 1 < m <= LL.max_ll -> Z.gcd a m = 1 ->
  exists r, modInverse a m = Ret r /\ 0 <= r < m /\ (a * r) mod m = 1.
Proof.
  intros Ha Hm Hg. unfold modInverse.
  destruct (Z.eqb_spec m 1); [lia|].
  destruct (modInverse_loop_inverse a m ltac:(lia) (S (Z.to_nat (Z.abs m))) a m 0 1)
    as (x1 & Hloop & Hx1 & Hdiv).
  - lia.
  - unfold inverse_invariant.
    split; [lia|]. split; [lia|]. split; [exact Hg|].
    split; [left; lia|].
    split; [exists 0; ring|]. split; [exists (-1); ring|lia].
  - rewrite Hloop. simpl.
    assert (Hcong : forall r, (m | r * a - 1) -> 0 <= r < m -> (a * r) mod m = 1).
    { intros r [k Hk] Hr. replace (a * r) with (1 + k * m) by lia.
      rewrite Z.mod_add by lia. apply Z.mod_small. lia. }
    destruct (Z.ltb_spec x1 0).
    + exists (x1 + m). split; [|split].
      * unfold LL.add. rewrite wrap_in_range; [reflexivity|].
        unfold LL.in_range, LL.min_ll, LL.max_ll in *. lia.
      * lia.
      * apply Hcong; [|lia]. destruct Hdiv as [k Hk]. exists (k + a). lia.
    + exists x1. split; [reflexivity|]. split; [lia|]. apply Hcong; [exact Hdiv|lia].
Qed.

(** C4, for [1 <= a]. For [a >= 1] and a modulus [m > 1] coprime
    with [a], [modInverse a m] returns the inverse of [a] modulo [m],
    taken in [0, m); and [modInverse a 1] is [0] for every [a]. *)
Theorem C4_modInverse_inverse :
  (forall a m, 1 <= a -> 1 < m <= LL.max_ll -> Z.gcd a m = 1 ->
     exists r, modInverse a m = Ret r /\ 0 <= r < m /\ (a * r) mod m = 1) /\
  (forall a, modInverse a 1 = Ret 0).
Proof.
  split; [exact modInverse_correct|]. intros a. reflexivity.
Qed.

Lemma C4_modInverse_inverse_witness :
  exists r, modInverse 65537 10000 = Ret r /\ 0 <= r < 10000 /\
            (65537 * r) mod 10000 = 1.
Proof.
  apply (proj1 C4_modInverse_inverse 65537 10000).
  - lia.
  - unfold LL.max_ll, LL.half. lia.
  - reflexivity.
Defined.

(** C4 as stated fails for a negative [a]: [-1] is coprime with [3], the
    loop is skipped and [1] is returned, but [-1 * 1] is [2] modulo [3]. *)
Lemma C4_counterexample :
  Z.gcd (-1) 3 = 1 /\ modInverse (-1) 3 = Ret 1 /\
  ~ (exists r, modInverse (-1) 3 = Ret r /\ 0 <= r < 3 /\ (-1 * r) mod 3 = 1).
Proof.
  split; [reflexivity|]. split; [reflexivity|].
  intros (r & Hr & _ & Hmod). vm_compute in Hr.
  injection Hr as <-. vm_compute in Hmod. discriminate.
Qed.

Lemma modInverse_loop_stops fuel :
  forall a m x0 x1, Z.abs m < Z.of_nat fuel ->
    returns (modInverse_loop fuel a m x0 x1) \/
    modInverse_loop fuel a m x0 x1 = Fail DivisionByZero.
Proof.
  induction fuel as [|fuel IH]; intros a m x0 x1 Hfuel; [lia|].
  simpl. destruct (Z.ltb_spec 1 a) as [Ha|Ha]; [|left; now exists x1].
  unfold LL.div, LL.rem. destruct (Z.eqb_spec m 0) as [->|Hm]; [now right|].
  destruct (Z.eqb_spec a LL.min_ll) as [->|_]; [unfold LL.min_ll, LL.half in Ha; lia|].
  simpl. apply IH. pose proof (Z.rem_bound_abs a m Hm). lia.
Qed.

Lemma modInverse_loop_coprime fuel :
  forall a m x0 x1, Z.abs m < Z.of_nat fuel -> Z.gcd a m = 1 ->
    returns (modInverse_loop fuel a m x0 x1).
Proof.
  induction fuel as [|fuel IH]; intros a m x0 x1 Hfuel Hg; [lia|].
  simpl. destruct (Z.ltb_spec 1 a) as [Ha|Ha]; [|now exists x1].
  unfold LL.div, LL.rem. destruct (Z.eqb_spec m 0) as [->|Hm].
  { rewrite Z.gcd_0_r in Hg. lia. }
  destruct (Z.eqb_spec a LL.min_ll) as [->|_]; [unfold LL.min_ll, LL.half in Ha; lia|].
  simpl. apply IH.
  - pose proof (Z.rem_bound_abs a m Hm). lia.
  - rewrite Z.gcd_comm, Z.gcd_rem by exact Hm. now rewrite Z.gcd_comm.
Qed.

Lemma modInverse_loop_not_coprime fuel :
  forall a m x0 x1, Z.abs m < Z.of_nat fuel -> 1 < a -> 0 <= m ->
    Z.gcd a m <> 1 ->
    modInverse_loop fuel a m x0 x1 = Fail DivisionByZero.
Proof.
  induction fuel as [|fuel IH]; intros a m x0 x1 Hfuel Ha Hm Hg; [lia|].
  simpl. destruct (Z.ltb_spec 1 a) as [_|]; [|lia].
  destruct (Z.eq_dec m 0) as [->|Hm0]; [reflexivity|].
  rewrite div_nonneg, rem_nonneg by lia. simpl.
  pose proof (Z.mod_pos_bound a m ltac:(lia)).
  apply IH; try lia.
  - destruct (Z.eq_dec m 1) as [->|]; [|lia].
    rewrite Z.gcd_1_r in Hg. congruence.
  - rewrite gcd_step by lia. exact Hg.
Qed.

(** C5, with the failure made explicit. [modInverse] stops on every input pair: it returns a
    value or it stops at a division by zero.  It returns a value whenever
    [gcd a m = 1]; for [a > 1], [m >= 0] and [gcd a m <> 1] the loop
    reaches [m = 0] and the quotient [a / m] is a division by zero, so no
    value is returned. *)
Theorem C5_modInverse_stops :
  (forall a m, returns (modInverse a m) \/ modInverse a m = Fail DivisionByZero) /\
  (forall a m, Z.gcd a m = 1 -> returns (modInverse a m)) /\
  (forall a m, 1 < a -> 0 <= m -> Z.gcd a m <> 1 ->
     modInverse a m = Fail DivisionByZero).
Proof.
  split; [|split].
  - intros a m. unfold modInverse. destruct (m =? 1); [left; now exists 0|].
    destruct (modInverse_loop_stops (S (Z.to_nat (Z.abs m))) a m 0 1 ltac:(lia))
      as [[x1 ->] | ->]; [left|now right].
    simpl. eexists. reflexivity.
  - intros a m Hg. unfold modInverse. destruct (m =? 1); [now exists 0|].
    destruct (modInverse_loop_coprime (S (Z.to_nat (Z.abs m))) a m 0 1 ltac:(lia) Hg)
      as [x1 ->].
    simpl. eexists. reflexivity.
  - intros a m Ha Hm Hg. unfold modInverse.
    destruct (Z.eqb_spec m 1) as [->|_].
    { rewrite Z.gcd_1_r in Hg. congruence. }
    now rewrite modInverse_loop_not_coprime by (lia || assumption).
Qed.

Lemma C5_modInverse_stops_witness :
  returns (modInverse 65537 10000) /\ modInverse 6 4 = Fail DivisionByZero.
Proof.
  split.
  - apply (proj1 (proj2 C5_modInverse_stops) 65537 10000). reflexivity.
  - apply (proj2 (proj2 C5_modInverse_stops) 6 4); [lia | lia | ].
    vm_compute. discriminate.
Defined.

(** C5 as stated fails: on [(4, 2)], where [gcd 4 2 = 2], the first round
    leaves [a = 2], [m = 0] and the second round divides by zero. *)
Lemma C5_counterexample :
  Z.gcd 4 2 <> 1 /\ modInverse 4 2 = Fail DivisionByZero /\
  ~ returns (modInverse 4 2).
Proof.
  split; [vm_compute; discriminate|]. split; [reflexivity|].
  intros [r Hr]. vm_compute in Hr. discriminate.
Qed.

(** ** Properties of [modPow] *)

Lemma rem_pow_idemp a k m :
  m <> 0 -> 0 <= k -> Z.rem (Z.rem a m ^ k) m = Z.rem (a ^ k) m.
Proof.
  intros Hm Hk. pattern k. apply natlike_ind; [reflexivity| |exact Hk].
  intros x Hx IH. rewrite !Z.pow_succ_r by exact Hx.
  rewrite Z.mul_rem_idemp_l by exact Hm.
  rewrite <- Z.mul_rem_idemp_r, IH, Z.mul_rem_idemp_r by exact Hm.
  reflexivity.
Qed.

Lemma land_1 e : Z.land e 1 = e mod 2.
Proof. change 1 with (Z.ones 1) at 1. now rewrite Z.land_ones by lia. Qed.

Lemma shiftr_1 e : Z.shiftr e 1 = e / 2.
Proof. rewrite Z.shiftr_div_pow2 by lia. reflexivity. Qed.

(** A product of two residues of [mod_] does not overflow as long as
    [(mod_ - 1) * (mod_ - 1)] fits in a [long long]. *)
Lemma mul_residues x y mod_ :
  0 < mod_ -> (mod_ - 1) * (mod_ - 1) <= LL.max_ll ->
  Z.abs x < mod_ \/ x = 1 -> Z.abs y < mod_ ->
  LL.mul x y = x * y.
Proof.
  intros Hm Hsq Hx Hy. unfold LL.mul. apply wrap_in_range.
  unfold LL.in_range, LL.min_ll, LL.max_ll, LL.half in *.
  destruct Hx as [Hx| ->]; nia.
Qed.

Lemma modPow_loop_unfold fuel result base exp mod_ :
  modPow_loop (S fuel) result base exp mod_ =
  if 0 <? exp then
    result' <- (if Z.land exp 1 =? 0 then Ret result
                else LL.rem (LL.mul result base) mod_) ;;
    base' <- LL.rem (LL.mul base base) mod_ ;;
    modPow_loop fuel result' base' (Z.shiftr exp 1) mod_
  else Ret result.
Proof. reflexivity. Qed.

Lemma modPow_loop_spec mod_ :
  0 < mod_ -> (mod_ - 1) * (mod_ - 1) <= LL.max_ll ->
  forall fuel result base exp,
    0 <= exp < 2 ^ Z.of_nat fuel ->
    Z.abs result < mod_ \/ result = 1 -> Z.abs base < mod_ ->
    modPow_loop (S fuel) result base exp mod_ =
    Ret (if exp =? 0 then result else Z.rem (result * base ^ exp) mod_).
Proof.
  intros Hm Hsq. induction fuel as [|fuel IH]; intros result base exp He Hr Hb.
  { simpl in He. assert (exp = 0) by lia. subst. reflexivity. }
  rewrite modPow_loop_unfold. destruct (Z.ltb_spec 0 exp) as [Hpos|Hz].
  2:{ assert (exp = 0) by lia. subst. reflexivity. }
  destruct (Z.eqb_spec exp 0) as [|_]; [lia|].
  rewrite land_1, shiftr_1.
  pose proof (Z.div_mod exp 2 ltac:(lia)) as Hdm.
  pose proof (Z.mod_pos_bound exp 2 ltac:(lia)) as Hbit.
  assert (He' : 0 <= exp / 2 < 2 ^ Z.of_nat fuel).
  { rewrite Nat2Z.inj_succ, Z.pow_succ_r in He by lia.
    split; [apply Z.div_pos; lia|]. apply Z.div_lt_upper_bound; lia. }
  assert (Hsqb : Z.abs (Z.rem (base * base) mod_) < mod_).
  { pose proof (Z.rem_bound_abs (base * base) mod_ ltac:(lia)). lia. }
  assert (Hbase2 : forall k, 0 <= k -> base ^ (2 * k) = (base * base) ^ k).
  { intros k Hk. rewrite Z.pow_mul_r by lia. now rewrite Z.pow_2_r. }
  rewrite (mul_residues base base mod_) by (auto; lia).
  rewrite (rem_pos_divisor (base * base)) by exact Hm.
  destruct (Z.eqb_spec (exp mod 2) 0) as [Hb0|Hb1].
  - cbn [bind]. rewrite IH by auto.
    destruct (Z.eqb_spec (exp / 2) 0) as [Hq|Hq]; [lia|].
    f_equal.
    rewrite <- (Z.mul_rem_idemp_r result (Z.rem (base * base) mod_ ^ (exp / 2)))
      by lia.
    rewrite rem_pow_idemp, Z.mul_rem_idemp_r by lia.
    rewrite <- Hbase2 by lia.
    replace (2 * (exp / 2)) with exp by lia. reflexivity.
  - rewrite (mul_residues result base mod_) by auto.
    rewrite rem_pos_divisor by exact Hm. cbn [bind].
    assert (Hres : Z.abs (Z.rem (result * base) mod_) < mod_).
    { pose proof (Z.rem_bound_abs (result * base) mod_ ltac:(lia)). lia. }
    rewrite IH by auto.
    assert (Hexp : exp = 2 * (exp / 2) + 1) by lia.
    destruct (Z.eqb_spec (exp / 2) 0) as [Hq|Hq].
    + f_equal. replace exp with 1 by lia. now rewrite Z.pow_1_r.
    + f_equal. rewrite Z.mul_rem_idemp_l by lia.
      rewrite <- (Z.mul_rem_idemp_r (result * base)
                    (Z.rem (base * base) mod_ ^ (exp / 2))) by lia.
      rewrite rem_pow_idemp, Z.mul_rem_idemp_r by lia.
      rewrite <- Hbase2 by lia.
      rewrite Hexp at 2. rewrite Z.pow_add_r, Z.pow_1_r by lia.
      f_equal. ring.
Qed.

Lemma modPow_spec base exp mod_ :
  0 <= exp <= LL.max_ll ->
  0 < mod_ -> (mod_ - 1) * (mod_ - 1) <= LL.max_ll ->
  1 < mod_ \/ 0 < exp ->
  modPow base exp mod_ = Ret (Z.rem (base ^ exp) mod_).
Proof.
  intros He Hm Hsq Hne. unfold modPow.
  rewrite rem_pos_divisor by exact Hm. cbn [bind].
  change 64%nat with (S 63).
  rewrite (modPow_loop_spec mod_ Hm Hsq).
  - destruct (Z.eqb_spec exp 0) as [->|Hz].
    + f_equal. rewrite Z.pow_0_r, Z.rem_small; lia.
    + f_equal. rewrite Z.mul_1_l. apply rem_pow_idemp; lia.
  - unfold LL.max_ll, LL.half in He. change (Z.of_nat 63) with 63. lia.
  - now right.
  - pose proof (Z.rem_bound_abs base mod_ ltac:(lia)). lia.
Qed.

(** Whatever the products do, [modPow] returns a value for every
    modulus [mod_ > 0] and every exponent of the [long long] range. *)
Lemma modPow_loop_returns mod_ :
  0 < mod_ ->
  forall fuel result base exp,
    exp < 2 ^ Z.of_nat fuel ->
    returns (modPow_loop (S fuel) result base exp mod_).
Proof.
  intros Hm. induction fuel as [|fuel IH]; intros result base exp He;
    rewrite modPow_loop_unfold; destruct (Z.ltb_spec 0 exp) as [Hpos|Hz];
    try (now exists result).
  - simpl in He. lia.
  - rewrite !rem_pos_divisor by exact Hm.
    destruct (Z.land exp 1 =? 0); cbn [bind]; apply IH; rewrite shiftr_1;
      rewrite Nat2Z.inj_succ, Z.pow_succ_r in He by lia;
      apply Z.div_lt_upper_bound; lia.
Qed.

Lemma modPow_returns base exp mod_ :
  0 < mod_ -> exp <= LL.max_ll -> returns (modPow base exp mod_).
Proof.
  intros Hm He. unfold modPow. rewrite rem_pos_divisor by exact Hm.
  cbn [bind]. change 64%nat with (S 63). apply modPow_loop_returns; [exact Hm|].
  unfold LL.max_ll, LL.half in He. change (Z.of_nat 63) with 63. lia.
Qed.

(** C2, within the range of [long long]. For every [base], every exponent [exp >= 0] and every
    modulus [mod_ > 0] whose residues multiply without overflow
    ([(mod_ - 1)^2 <= LLONG_MAX]), leaving out only the pair [exp = 0],
    [mod_ = 1]: [modPow] returns the remainder [%] of [base ^ exp] by
    [mod_], which is [base ^ exp mod mod_] when [base >= 0]; the result is
    below [mod_], and it is [1 mod mod_] when [exp = 0]. *)
Theorem C2_modPow_power base exp mod_ :
  0 <= exp <= LL.max_ll ->
  0 < mod_ -> (mod_ - 1) * (mod_ - 1) <= LL.max_ll ->
  1 < mod_ \/ 0 < exp ->
  exists r, modPow base exp mod_ = Ret r /\
            r = Z.rem (base ^ exp) mod_ /\
            (0 <= base -> r = base ^ exp mod mod_) /\
            r < mod_ /\
            (exp = 0 -> r = 1 mod mod_).
Proof.
  intros He Hm Hsq Hne. exists (Z.rem (base ^ exp) mod_).
  split; [now apply modPow_spec|]. split; [reflexivity|].
  split; [|split].
  - intros Hb. apply Z.rem_mod_nonneg; [|exact Hm]. apply Z.pow_nonneg, Hb.
  - pose proof (Z.rem_bound_abs (base ^ exp) mod_ ltac:(lia)). lia.
  - intros ->. rewrite Z.pow_0_r. apply Z.rem_mod_nonneg; lia.
Qed.

Lemma C2_modPow_power_witness :
  exists r, modPow 7 65537 10403 = Ret r /\
            r = Z.rem (7 ^ 65537) 10403 /\
            (0 <= 7 -> r = 7 ^ 65537 mod 10403) /\
            r < 10403 /\
            (65537 = 0 -> r = 1 mod 10403).
Proof.
  apply (C2_modPow_power 7 65537 10403);
    unfold LL.max_ll, LL.half; lia.
Defined.

(** C2 as stated fails at [exp = 0], [mod_ = 1]: the loop is skipped and the
    initial [result = 1] is returned, which is neither [1 mod 1 = 0] nor
    below the modulus.  It also fails once products of residues overflow:
    [3037000500 = -1] modulo [3037000501], its square is [1], but the
    product [3037000500 * 3037000500] exceeds [LLONG_MAX]. *)
Lemma C2_counterexample :
  (modPow 5 0 1 = Ret 1 /\ 1 mod 1 = 0 /\ ~ 1 < 1) /\
  (modPow 3037000500 2 3037000501 = Ret (-2746052118) /\
   3037000500 ^ 2 mod 3037000501 = 1).
Proof.
  split; [split; [reflexivity|split; [reflexivity|lia]]|].
  split; vm_compute; reflexivity.
Qed.

(** ** Correctness of the cipher on numbers *)

(** Every value that [generatePrime] can hand to the constructor is prime. *)
Lemma generated_prime num : generated num -> Z.prime num.
Proof.
  intros [Hr Hp]. apply trial_division_prime.
  rewrite isPrime_trial_division in Hp by lia. now injection Hp.
Qed.

Lemma pow_fermat_exponent p a k :
  Z.prime p -> 0 <= k -> a ^ (1 + k * (p - 1)) mod p = a mod p.
Proof.
  intros Hp Hk. pose proof (Z.prime_ge_2 p Hp) as H2.
  rewrite Z.pow_add_r, Z.pow_1_r by nia.
  destruct (Z.eq_dec (a mod p) 0) as [Hz|Hnz].
  - rewrite <- Zmult_mod_idemp_l, Hz. reflexivity.
  - rewrite <- Zmult_mod_idemp_r.
    replace (k * (p - 1)) with ((p - 1) * k) by ring.
    rewrite Z.pow_mul_r by lia.
    rewrite <- Z.mod_pow_l, (ZmodInv.Z.fermat_nz p a Hp Hnz), Z.pow_1_l by lia.
    rewrite Z.mod_1_l, Z.mul_1_r by lia. reflexivity.
Qed.

Lemma cong_mod_product p q x y :
  Z.prime p -> Z.prime q -> p <> q ->
  x mod p = y mod p -> x mod q = y mod q -> x mod (p * q) = y mod (p * q).
Proof.
  intros Hp Hq Hne Hxp Hxq.
  pose proof (Z.prime_ge_2 p Hp). pose proof (Z.prime_ge_2 q Hq).
  apply Z.cong_iff_0 in Hxp, Hxq. apply Z.cong_iff_0.
  apply Z.mod_divide in Hxp, Hxq; try lia.
  apply Z.mod_divide; [nia|].
  destruct Hxp as [c Hc]. rewrite Hc in *.
  assert (Hco : Z.gcd q p = 1).
  { apply Z.coprime_prime_l; [exact Hq|]. intros Hd.
    apply Hne. symmetry. now apply Z.divide_prime_prime. }
  rewrite Z.mul_comm in Hxq. apply Z.gauss in Hxq; [|exact Hco].
  destruct Hxq as [c' ->]. exists c'. ring.
Qed.

(** Textbook RSA: an exponent that is [1] modulo [(p - 1) * (q - 1)] acts
    as the identity modulo [p * q], for distinct primes [p] and [q]. *)
Lemma rsa_exponent p q m k :
  Z.prime p -> Z.prime q -> p <> q -> 0 <= k ->
  m ^ (1 + k * ((p - 1) * (q - 1))) mod (p * q) = m mod (p * q).
Proof.
  intros Hp Hq Hne Hk.
  pose proof (Z.prime_ge_2 p Hp). pose proof (Z.prime_ge_2 q Hq).
  apply cong_mod_product; auto.
  - replace (k * ((p - 1) * (q - 1))) with (k * (q - 1) * (p - 1)) by ring.
    apply pow_fermat_exponent; [exact Hp|nia].
  - replace (k * ((p - 1) * (q - 1))) with (k * (p - 1) * (q - 1)) by ring.
    apply pow_fermat_exponent; [exact Hq|nia].
Qed.

Section RoundTrip.

Variables p0 q0 : Z.
Hypothesis prime_p : Z.prime p0.
Hypothesis prime_q : Z.prime q0.
Hypothesis distinct : p0 <> q0.
Hypothesis small : (p0 * q0 - 1) * (p0 * q0 - 1) <= LL.max_ll.
Hypothesis coprime_e : Z.gcd 65537 ((p0 - 1) * (q0 - 1)) = 1.

Let n0 := p0 * q0.
Let phi0 := (p0 - 1) * (q0 - 1).

Lemma key_bounds : 2 <= p0 /\ 2 <= q0 /\ 6 <= n0 /\ 2 <= phi0 /\ n0 <= LL.max_ll.
Proof.
  pose proof (Z.prime_ge_2 p0 prime_p). pose proof (Z.prime_ge_2 q0 prime_q).
  unfold n0, phi0, LL.max_ll, LL.half in *. nia.
Qed.

Lemma RSA_new_fields :
  exists d0, RSA_new p0 q0 = Ret (mkRSA p0 q0 n0 phi0 65537 d0) /\
             0 <= d0 < phi0 /\ (65537 * d0) mod phi0 = 1.
Proof.
  destruct key_bounds as (Hp2 & Hq2 & Hn & Hphi & Hmax).
  unfold LL.max_ll, LL.half in Hmax.
  assert (Hphi_le : phi0 <= n0) by (unfold phi0, n0; nia).
  destruct (modInverse_correct 65537 phi0) as (d0 & Hd & Hrange & Hinv);
    [lia | unfold LL.max_ll, LL.half; lia | exact coprime_e |].
  exists d0. split; [|split; assumption].
  unfold RSA_new, LL.mul, LL.sub.
  rewrite (wrap_in_range (p0 - 1)), (wrap_in_range (q0 - 1)),
    (wrap_in_range (p0 * q0)), (wrap_in_range ((p0 - 1) * (q0 - 1)));
    try (unfold LL.in_range, LL.min_ll, LL.max_ll, LL.half;
         fold n0; fold phi0; nia).
  fold phi0. rewrite Hd. reflexivity.
Qed.

Lemma private_exponent_odd d0 : (65537 * d0) mod phi0 = 1 -> Z.odd d0 = true.
Proof.
  intros Hinv.
  assert (Heven : Z.even phi0 = true).
  { unfold phi0. rewrite Z.even_mul.
    assert (Hodd : forall r, Z.prime r -> r <> 2 -> Z.even (r - 1) = true).
    { intros r [Hr1 Hr] Hr2.
      destruct (Z.even (r - 1)) eqn:E; [reflexivity|].
      exfalso. apply (Hr 2); [lia|].
      rewrite <- Z.negb_odd in E. apply negb_false_iff in E.
      apply Z.odd_spec in E. destruct E as [c Hc]. exists (c + 1). lia. }
    destruct (Z.eq_dec p0 2) as [Hp2|Hp2].
    - rewrite (Hodd q0 prime_q) by congruence. apply orb_true_r.
    - now rewrite (Hodd p0 prime_p). }
  apply Z.even_spec in Heven. destruct Heven as [c Hc].
  pose proof (Z.div_mod (65537 * d0) phi0) as Hdm.
  destruct key_bounds as (_ & _ & _ & Hphi & _).
  specialize (Hdm ltac:(lia)). rewrite Hinv, Hc in Hdm.
  destruct (Z.odd d0) eqn:E; [reflexivity|].
  rewrite <- Z.negb_even in E. apply negb_false_iff in E.
  apply Z.even_spec in E. destruct E as [c' Hc']. lia.
Qed.

Lemma power_cycle d0 m :
  0 <= d0 -> (65537 * d0) mod phi0 = 1 ->
  (m ^ 65537) ^ d0 mod n0 = m mod n0.
Proof.
  intros Hd Hinv. destruct key_bounds as (_ & _ & _ & Hphi & _).
  rewrite <- Z.pow_mul_r by lia.
  pose proof (Z.div_mod (65537 * d0) phi0 ltac:(lia)) as Hdm.
  rewrite Hinv in Hdm.
  assert (Hk : 0 <= 65537 * d0 / phi0) by (apply Z.div_pos; lia).
  replace (65537 * d0) with (1 + (65537 * d0 / phi0) * phi0) by lia.
  unfold phi0, n0. now apply rsa_exponent.
Qed.

(** Encryption followed by decryption, on a number of either sign that is
    smaller than the modulus in absolute value. *)
Lemma number_roundtrip k m :
  RSA_new p0 q0 = Ret k -> Z.abs m < n0 ->
  exists c, encrypt k m = Ret c /\ Z.abs c < n0 /\ decrypt k c = Ret m.
Proof.
  intros Hk Hm. destruct RSA_new_fields as (d0 & Hnew & Hd & Hinv).
  rewrite Hnew in Hk. injection Hk as <-.
  destruct key_bounds as (Hp2 & Hq2 & Hn & Hphi & Hmax).
  pose proof (private_exponent_odd d0 Hinv) as Hodd.
  assert (Hd_max : d0 <= LL.max_ll).
  { assert (phi0 <= n0) by (unfold phi0, n0; nia). lia. }
  unfold encrypt, decrypt. cbn [e n d].
  exists (Z.rem (m ^ 65537) n0).
  rewrite !modPow_spec;
    try (unfold LL.max_ll, LL.half; lia); try (fold n0; lia).
  split; [reflexivity|]. split.
  { pose proof (Z.rem_bound_abs (m ^ 65537) n0 ltac:(lia)). lia. }
  f_equal.
  assert (Hpos : forall a, 0 <= a < n0 ->
            Z.rem (Z.rem (a ^ 65537) n0 ^ d0) n0 = a).
  { intros a Ha. rewrite rem_pow_idemp by lia.
    rewrite Z.rem_mod_nonneg; [|apply Z.pow_nonneg, Z.pow_nonneg; lia|lia].
    rewrite power_cycle by (lia || assumption). apply Z.mod_small, Ha. }
  destruct (Z_lt_le_dec m 0) as [Hneg|Hnn]; [|apply Hpos; lia].
  replace m with (- (- m)) at 1 by lia.
  rewrite (Z.pow_opp_odd (- m) 65537) by (exists 32768; reflexivity).
  rewrite Z.rem_opp_l by lia.
  rewrite Z.pow_opp_odd by (apply Z.odd_spec, Hodd).
  rewrite Z.rem_opp_l, Hpos by lia. lia.
Qed.

End RoundTrip.

Lemma range_small p q :
  100 <= p < 1000 -> 100 <= q < 1000 ->
  (p * q - 1) * (p * q - 1) <= LL.max_ll.
Proof.
  intros Hp Hq. unfold LL.max_ll, LL.half.
  assert (10000 <= p * q <= 1000000) by nia.
  generalize dependent (p * q). intros x Hx. nia.
Qed.

(** C1, for distinct primes. For primes [p <> q] of [100, 1000)
    with [gcd 65537 ((p - 1) * (q - 1)) = 1], the constructor builds the
    key [n = p * q], [e = 65537], [d = modInverse e phi], and decryption
    undoes encryption on every [m] of [0, p * q). *)
Theorem C1_decrypt_encrypt p q :
  Z.prime p -> Z.prime q -> p <> q ->
  100 <= p < 1000 -> 100 <= q < 1000 ->
  Z.gcd 65537 ((p - 1) * (q - 1)) = 1 ->
  exists k, RSA_new p q = Ret k /\
            n k = p * q /\ e k = 65537 /\
            modInverse (e k) ((p - 1) * (q - 1)) = Ret (d k) /\
            forall m, 0 <= m < p * q ->
              (c <- encrypt k m ;; decrypt k c) = Ret m.
Proof.
  intros Hp Hq Hne Hrp Hrq Hg.
  pose proof (range_small p q Hrp Hrq) as Hsmall.
  destruct (RSA_new_fields p q Hp Hq Hne Hsmall Hg) as (d0 & Hnew & Hd & Hinv).
  eexists. split; [exact Hnew|]. cbn [n e d].
  split; [reflexivity|]. split; [reflexivity|]. split.
  - unfold RSA_new in Hnew.
    destruct (modInverse_correct 65537 ((p - 1) * (q - 1))) as (d1 & Hd1 & _);
      [lia | unfold LL.max_ll, LL.half; nia | exact Hg |].
    rewrite Hd1. f_equal.
    unfold LL.mul, LL.sub in Hnew.
    rewrite (wrap_in_range (p - 1)), (wrap_in_range (q - 1)),
      (wrap_in_range ((p - 1) * (q - 1))) in Hnew;
      try (unfold LL.in_range, LL.min_ll, LL.max_ll, LL.half; nia).
    rewrite Hd1 in Hnew. cbn [bind] in Hnew. congruence.
  - intros m Hm.
    destruct (number_roundtrip p q Hp Hq Hne Hsmall Hg _ m Hnew ltac:(lia))
      as (c & -> & _ & Hdec).
    exact Hdec.
Qed.

Lemma prime_101 : Z.prime 101.
Proof. apply trial_division_prime. vm_compute. reflexivity. Qed.

Lemma prime_103 : Z.prime 103.
Proof. apply trial_division_prime. vm_compute. reflexivity. Qed.

Lemma C1_decrypt_encrypt_witness :
  exists k, RSA_new 101 103 = Ret k /\
            n k = 101 * 103 /\ e k = 65537 /\
            modInverse (e k) ((101 - 1) * (103 - 1)) = Ret (d k) /\
            forall m, 0 <= m < 101 * 103 ->
              (c <- encrypt k m ;; decrypt k c) = Ret m.
Proof.
  apply (C1_decrypt_encrypt 101 103 prime_101 prime_103);
    [lia | lia | lia | reflexivity].
Defined.

(** C1 as stated fails when the two draws coincide: for [p = q = 101] the
    exponents are inverse modulo [(p - 1) * (q - 1) = 10000], which is not
    the totient of [n = 10201]; [m = 101] encrypts to [0] and [0] decrypts
    to [0]. *)
Lemma C1_counterexample :
  Z.prime 101 /\ Z.gcd 65537 ((101 - 1) * (101 - 1)) = 1 /\
  RSA_new 101 101 = Ret (mkRSA 101 101 10201 10000 65537 3473) /\
  0 <= 101 < 101 * 101 /\
  (c <- encrypt (mkRSA 101 101 10201 10000 65537 3473) 101 ;;
   decrypt (mkRSA 101 101 10201 10000 65537 3473) c) = Ret 0.
Proof.
  split; [exact prime_101|]. split; [reflexivity|].
  split; [vm_compute; reflexivity|]. split; [lia|].
  vm_compute. reflexivity.
Qed.

(** ** Strings *)

(** The conversion to [int] keeps a value that an [int] can hold. *)
Lemma of_size_small z : 0 <= z <= Int.max_int -> Int.of_size z = z.
Proof.
  unfold Int.max_int, Int.of_size. intros H.
  change Int.mask with (Z.ones 32). change Int.half with (2 ^ 31) in *.
  rewrite Z.land_ones by lia. rewrite Z.mod_small by lia. ring.
Qed.

Lemma of_size_width (t : string) :
  (String.length t <= 64)%nat ->
  Int.of_size (Z.of_nat (String.length t)) = Z.of_nat (String.length t).
Proof.
  intros H. apply of_size_small. unfold Int.max_int, Int.half. lia.
Qed.

Lemma append_nil_r (s : string) : (s ++ "")%string = s.
Proof. induction s as [|c s IH]; simpl; [reflexivity|now rewrite IH]. Qed.

Lemma append_assoc (s1 s2 s3 : string) :
  ((s1 ++ s2) ++ s3)%string = (s1 ++ (s2 ++ s3))%string.
Proof. induction s1 as [|c s1 IH]; simpl; [reflexivity|now rewrite IH]. Qed.

Lemma length_append (s1 s2 : string) :
  String.length (s1 ++ s2) = (String.length s1 + String.length s2)%nat.
Proof. induction s1 as [|c s1 IH]; simpl; [reflexivity|now rewrite IH]. Qed.

(** ** The codec layer: [binaryToLong] and [longToBinary] *)

Lemma shr_small v i : 0 <= i < 64 -> LL.shr v i = v / 2 ^ i.
Proof.
  intros Hi. unfold LL.shr. change 63 with (Z.ones 6).
  rewrite Z.land_ones, Z.mod_small by (simpl; lia).
  apply Z.shiftr_div_pow2. lia.
Qed.

Lemma longToBinary_loop_app v i1 : forall result,
  longToBinary_loop v i1 result = (result ++ longToBinary_loop v i1 "")%string.
Proof.
  induction i1 as [|i IH]; intros result; simpl.
  - now rewrite append_nil_r.
  - rewrite IH. rewrite (IH (String _ _)). now rewrite append_assoc.
Qed.

Lemma longToBinary_succ v i :
  longToBinary_loop v (S i) "" =
  String (bit_char (negb (Z.land (LL.shr v (Z.of_nat i)) 1 =? 0)))
         (longToBinary_loop v i "").
Proof.
  cbn [longToBinary_loop]. rewrite longToBinary_loop_app. simpl.
  destruct (Z.land (LL.shr v (Z.of_nat i)) 1 =? 0); reflexivity.
Qed.

Lemma longToBinary_length v i : String.length (longToBinary_loop v i "") = i.
Proof.
  induction i as [|i IH]; [reflexivity|].
  rewrite longToBinary_succ. simpl. now rewrite IH.
Qed.

Lemma longToBinary_binary v i : binary (longToBinary_loop v i "").
Proof.
  unfold binary. induction i as [|i IH]; [reflexivity|].
  rewrite longToBinary_succ. cbn [all_chars]. rewrite IH.
  destruct (negb _); reflexivity.
Qed.

Lemma low_bits_succ v i :
  0 <= i -> v mod 2 ^ (i + 1) = (v / 2 ^ i) mod 2 * 2 ^ i + v mod 2 ^ i.
Proof.
  intros Hi. rewrite Z.pow_add_r, Z.pow_1_r by lia.
  rewrite Z.rem_mul_r by lia. ring.
Qed.

Lemma longToBinary_value v i :
  (i <= 64)%nat ->
  big_endian_value (longToBinary_loop v i "") = v mod 2 ^ Z.of_nat i.
Proof.
  induction i as [|i IH]; intros Hi.
  - simpl. now rewrite Z.mod_1_r.
  - rewrite longToBinary_succ. cbn [big_endian_value].
    rewrite longToBinary_length, IH by lia.
    rewrite Nat2Z.inj_succ, <- Z.add_1_r, low_bits_succ by lia.
    rewrite shr_small, land_1 by lia.
    pose proof (Z.mod_pos_bound (v / 2 ^ Z.of_nat i) 2 ltac:(lia)) as Hb.
    destruct (Z.eqb_spec ((v / 2 ^ Z.of_nat i) mod 2) 0) as [->|Hne]; simpl.
    + reflexivity.
    + replace ((v / 2 ^ Z.of_nat i) mod 2) with 1 by lia. reflexivity.
Qed.

Lemma is_bit_value cs c :
  is_bit c = true -> char_to_ll cs c - 48 = if code c =? 49 then 1 else 0.
Proof.
  unfold is_bit, char_to_ll. intros H. apply orb_true_iff in H.
  destruct H as [H|H]; apply Z.eqb_eq in H; rewrite H; simpl;
    now rewrite andb_false_r.
Qed.

Lemma lor_low_bit a b : 0 <= b <= 1 -> Z.lor (2 * a) b = 2 * a + b.
Proof.
  intros Hb. pose proof (Z.add_lor_land (2 * a) b) as H.
  assert (Hland : Z.land (2 * a) b = 0).
  { assert (b = 0 \/ b = 1) as [-> | ->] by lia.
    - apply Z.land_0_r.
    - rewrite land_1, Z.mul_comm. apply Z.mod_mul. lia. }
  lia.
Qed.

Lemma big_endian_value_bound s :
  0 <= big_endian_value s < 2 ^ Z.of_nat (String.length s).
Proof.
  induction s as [|c s IH]; [simpl; lia|].
  cbn [big_endian_value String.length].
  rewrite Nat2Z.inj_succ, Z.pow_succ_r by lia.
  destruct (code c =? 49); lia.
Qed.

Lemma binaryToLong_loop_value cs s : forall acc,
  binary s -> 0 <= acc ->
  acc * 2 ^ Z.of_nat (String.length s) + big_endian_value s <= LL.max_ll ->
  binaryToLong_loop cs s acc =
  acc * 2 ^ Z.of_nat (String.length s) + big_endian_value s.
Proof.
  unfold binary. induction s as [|c s IH]; intros acc Hbin Hacc Hmax.
  - simpl. lia.
  - cbn [all_chars] in Hbin. apply andb_true_iff in Hbin as [Hc Hs].
    cbn [binaryToLong_loop big_endian_value String.length] in *.
    rewrite Nat2Z.inj_succ, Z.pow_succ_r in * by lia.
    pose proof (big_endian_value_bound s) as Hb.
    set (b := if code c =? 49 then 1 else 0) in *.
    assert (Hbit : 0 <= b <= 1) by (unfold b; destruct (code c =? 49); lia).
    rewrite (is_bit_value cs c Hc). fold b.
    assert (Hpow : 0 < 2 ^ Z.of_nat (String.length s)) by (apply Z.pow_pos_nonneg; lia).
    assert (Hshl : LL.shl acc 1 = 2 * acc).
    { unfold LL.shl. rewrite Z.shiftl_mul_pow2, Z.pow_1_r by lia.
      rewrite wrap_in_range; [lia|].
      unfold LL.in_range, LL.min_ll, LL.max_ll, LL.half in *. nia. }
    rewrite Hshl, lor_low_bit by exact Hbit.
    rewrite IH; [ring|exact Hs|lia|nia].
Qed.

Lemma binaryToLong_value cs s :
  binary s -> big_endian_value s <= LL.max_ll ->
  binaryToLong cs s = big_endian_value s.
Proof.
  intros Hb Hmax. unfold binaryToLong.
  rewrite binaryToLong_loop_value; [ring|exact Hb|lia|lia].
Qed.

Lemma testbit_bit v i :
  0 <= i -> negb ((v / 2 ^ i) mod 2 =? 0) = Z.testbit v i.
Proof.
  intros Hi. rewrite Z.testbit_eqb by exact Hi.
  pose proof (Z.mod_pos_bound (v / 2 ^ i) 2 ltac:(lia)).
  destruct (Z.eqb_spec ((v / 2 ^ i) mod 2) 0), (Z.eqb_spec ((v / 2 ^ i) mod 2) 1);
    simpl; lia || reflexivity.
Qed.

Lemma longToBinary_get v i : forall j,
  (j < i)%nat -> (i <= 64)%nat ->
  String.get j (longToBinary_loop v i "") =
  Some (bit_char (Z.testbit v (Z.of_nat (i - 1 - j)))).
Proof.
  induction i as [|i IH]; intros j Hj Hi; [lia|].
  rewrite longToBinary_succ. destruct j as [|j]; cbn [String.get].
  - rewrite shr_small, land_1, testbit_bit by lia.
    do 3 f_equal. lia.
  - rewrite IH by lia. do 3 f_equal. lia.
Qed.

(** C9, for widths up to 64.  For [0 <= v] and [0 <= w <= 64],
    [longToBinary v w] has exactly [w] characters, its character at
    position [j] is bit [w - 1 - j] of [v] (so it denotes [v mod 2 ^ w]),
    and [binaryToLong] maps it back to [v mod 2 ^ w]; [binaryToLong] maps
    every string of binary digits whose value fits in a [long long], so
    every string of up to 63 digits, to the number it denotes, most
    significant digit first. *)
Theorem C9_codec cs :
  (forall v w, 0 <= v <= LL.max_ll -> 0 <= w <= 64 ->
     String.length (longToBinary v w) = Z.to_nat w /\
     (forall j, 0 <= j < w ->
        String.get (Z.to_nat j) (longToBinary v w) =
        Some (bit_char (Z.testbit v (w - 1 - j)))) /\
     big_endian_value (longToBinary v w) = v mod 2 ^ w /\
     binaryToLong cs (longToBinary v w) = v mod 2 ^ w) /\
  (forall s, binary s ->
     (String.length s <= 63)%nat \/ big_endian_value s <= LL.max_ll ->
     binaryToLong cs s = big_endian_value s).
Proof.
  split.
  - intros v w Hv Hw. unfold longToBinary.
    assert (Hval : big_endian_value (longToBinary_loop v (Z.to_nat w) "") = v mod 2 ^ w).
    { rewrite longToBinary_value by lia. now rewrite Z2Nat.id by lia. }
    split; [apply longToBinary_length|]. split; [|split].
    + intros j Hj. rewrite longToBinary_get by lia.
      do 3 f_equal. lia.
    + exact Hval.
    + rewrite binaryToLong_value, Hval; [reflexivity|apply longToBinary_binary|].
      rewrite Hval. pose proof (Z.mod_le v (2 ^ w) ltac:(lia) ltac:(apply Z.pow_pos_nonneg; lia)).
      lia.
  - intros s Hb [Hlen|Hmax]; apply binaryToLong_value; auto.
    pose proof (big_endian_value_bound s) as Hbound.
    assert (2 ^ Z.of_nat (String.length s) <= 2 ^ 63) by (apply Z.pow_le_mono_r; lia).
    unfold LL.max_ll, LL.half. lia.
Qed.

Lemma C9_codec_witness :
  String.length (longToBinary 11 3) = Z.to_nat 3 /\
  binaryToLong true (longToBinary 11 3) = 11 mod 2 ^ 3 /\
  binaryToLong true "1101" = big_endian_value "1101".
Proof.
  destruct (proj1 (C9_codec true) 11 3) as (Hlen & _ & _ & Hback).
  - unfold LL.max_ll, LL.half. lia.
  - lia.
  - split; [exact Hlen|]. split; [exact Hback|].
    apply (proj2 (C9_codec true) "1101"%string); [reflexivity|left; simpl; lia].
Defined.

(** C9 as stated fails for a width above 64: [1 >> 64] is outside what C++
    defines, the 64-bit shift uses the count [64 mod 64 = 0], and the
    first of the 65 characters of [longToBinary 1 65] is ['1'] although bit
    64 of [1] is [0].  And [binaryToLong] wraps on a string whose value
    needs 64 bits: a ['1'] followed by 63 ['0'] denotes [2 ^ 63] and is
    read as [- 2 ^ 63]. *)
Lemma C9_counterexample :
  (String.length (longToBinary 1 65) = 65%nat /\
   String.get 0 (longToBinary 1 65) = Some (bit_char true) /\
   Z.testbit 1 64 = false /\
   big_endian_value (longToBinary 1 65) = 2 ^ 64 + 1 /\
   1 mod 2 ^ 65 = 1) /\
  (big_endian_value
     "1000000000000000000000000000000000000000000000000000000000000000"
   = 2 ^ 63 /\
   binaryToLong true
     "1000000000000000000000000000000000000000000000000000000000000000"
   = - 2 ^ 63).
Proof. repeat split; vm_compute; reflexivity. Qed.

(** ** String streams: extraction and tokens *)

Lemma skip_ws_length ss : (String.length (skip_ws ss) <= String.length ss)%nat.
Proof.
  induction ss as [|c ss IH]; simpl; [lia|].
  destruct (isspace c); simpl; lia.
Qed.

Lemma read_word_length ss w r :
  read_word ss = (w, r) ->
  String.length ss = (String.length w + String.length r)%nat.
Proof.
  revert w r. induction ss as [|c ss IH]; intros w r H; simpl in H.
  - injection H as <- <-. reflexivity.
  - destruct (isspace c).
    + injection H as <- <-. reflexivity.
    + destruct (read_word ss) as [w' r'] eqn:E. injection H as <- <-.
      simpl. now rewrite (IH w' r' eq_refl).
Qed.

Lemma extract_shrinks ss token ss' :
  extract ss = Some (token, ss') ->
  token <> EmptyString /\ (String.length ss' < String.length ss)%nat.
Proof.
  unfold extract. pose proof (skip_ws_length ss) as Hskip.
  destruct (skip_ws ss) as [|c rest] eqn:E; [discriminate|].
  assert (Hc : isspace c = false).
  { clear Hskip. induction ss as [|c0 ss IH]; [discriminate|].
    simpl in E. destruct (isspace c0) eqn:E0; [now apply IH|].
    now injection E as <- _. }
  cbn [read_word]. rewrite Hc.
  destruct (read_word rest) as [w r] eqn:Er. intros H. injection H as <- <-.
  split; [discriminate|].
  apply read_word_length in Er. simpl in Hskip. lia.
Qed.

Lemma tokens_loop_fuel f1 : forall f2 ss,
  (String.length ss < f1)%nat -> (String.length ss < f2)%nat ->
  tokens_loop f1 ss = tokens_loop f2 ss.
Proof.
  induction f1 as [|f1 IH]; intros f2 ss H1 H2; [lia|].
  destruct f2 as [|f2]; [lia|]. simpl.
  destruct (extract ss) as [[t ss']|] eqn:E; [|reflexivity].
  apply extract_shrinks in E as [_ Hlt]. f_equal. apply IH; lia.
Qed.

Lemma tokens_loop_step fuel ss :
  tokens_loop (S fuel) ss = match extract ss with
                            | None => []
                            | Some (token, ss') => token :: tokens_loop fuel ss'
                            end.
Proof. reflexivity. Qed.

Lemma tokens_unfold ss :
  tokens ss = match extract ss with
              | None => []
              | Some (token, ss') => token :: tokens ss'
              end.
Proof.
  unfold tokens. rewrite tokens_loop_step.
  destruct (extract ss) as [[t ss']|] eqn:E; [|reflexivity].
  apply extract_shrinks in E as [_ Hlt]. f_equal. apply tokens_loop_fuel; lia.
Qed.

Lemma skip_ws_blank lead s : blank lead -> skip_ws (lead ++ s) = skip_ws s.
Proof.
  unfold blank. induction lead as [|c lead IH]; intros H; [reflexivity|].
  cbn [all_chars] in H. apply andb_true_iff in H as [Hc Hl].
  simpl. rewrite Hc. now apply IH.
Qed.

Lemma extract_blank lead s : blank lead -> extract (lead ++ s) = extract s.
Proof. intros H. unfold extract. now rewrite skip_ws_blank. Qed.

Lemma read_word_token t rest :
  all_chars (fun c => negb (isspace c)) t = true -> starts_blank rest = true ->
  read_word (t ++ rest) = (t, rest).
Proof.
  intros Ht Hr. induction t as [|c t IH].
  - simpl. destruct rest as [|c r]; [reflexivity|].
    simpl in *. now rewrite Hr.
  - cbn [all_chars] in Ht. apply andb_true_iff in Ht as [Hc Ht].
    apply negb_true_iff in Hc. simpl. rewrite Hc, (IH Ht). reflexivity.
Qed.

Lemma extract_token t rest :
  is_token t -> starts_blank rest = true -> extract (t ++ rest) = Some (t, rest).
Proof.
  intros [Hne Ht] Hr. destruct t as [|c t]; [congruence|].
  pose proof Ht as Ht'. cbn [all_chars] in Ht'.
  apply andb_true_iff in Ht' as [Hc _]. apply negb_true_iff in Hc.
  unfold extract. cbn [append skip_ws]. rewrite Hc.
  change (String c (t ++ rest)) with (String c t ++ rest)%string.
  now rewrite read_word_token.
Qed.

Lemma blank_starts_blank sep s :
  blank sep -> sep <> EmptyString -> starts_blank (sep ++ s) = true.
Proof.
  unfold blank. destruct sep as [|c sep]; [congruence|].
  cbn [all_chars]. intros H _. apply andb_true_iff in H as [Hc _]. exact Hc.
Qed.

Lemma tokens_blank lead : blank lead -> tokens lead = [].
Proof.
  intros H. rewrite tokens_unfold. unfold extract.
  rewrite <- (append_nil_r lead), skip_ws_blank by exact H. reflexivity.
Qed.

(** Extraction sees the tokens and nothing of the white space around them. *)
Lemma tokens_join pieces : forall lead,
  blank lead -> well_spaced pieces ->
  tokens (lead ++ join pieces) = map fst pieces.
Proof.
  induction pieces as [|[t sep] more IH]; intros lead Hlead Hwf.
  - simpl. rewrite append_nil_r. now apply tokens_blank.
  - destruct Hwf as (Ht & Hsep & Hlast & Hmore).
    rewrite tokens_unfold, extract_blank by exact Hlead.
    cbn [join map fst]. rewrite extract_token; [| exact Ht |].
    + f_equal. now apply IH.
    + destruct sep as [|c sep].
      * rewrite (Hlast eq_refl). reflexivity.
      * apply blank_starts_blank; [exact Hsep|discriminate].
Qed.

(** ** The stream loops as folds over the tokens *)

Lemma decryptString_fold k fuel : forall ss result,
  (String.length ss < fuel)%nat ->
  decryptString_loop fuel k ss result =
  fold_tokens (decryptString_body k) (tokens ss) result.
Proof.
  induction fuel as [|fuel IH]; intros ss result Hfuel; [lia|].
  rewrite tokens_unfold. cbn [decryptString_loop].
  destruct (extract ss) as [[t ss']|] eqn:E; [|reflexivity].
  apply extract_shrinks in E as [_ Hlt].
  cbn [fold_tokens]. unfold decryptString_body.
  destruct (stoll t) as [num|f]; [|reflexivity]. cbn [bind].
  destruct (decrypt k num) as [dec|f]; [|reflexivity]. cbn [bind].
  apply IH. lia.
Qed.

Lemma encryptHuffmanCodes_fold cs k fuel : forall ss result,
  (String.length ss < fuel)%nat ->
  encryptHuffmanCodes_loop cs fuel k ss result =
  fold_tokens (encryptHuffmanCodes_body cs k) (tokens ss) result.
Proof.
  induction fuel as [|fuel IH]; intros ss result Hfuel; [lia|].
  rewrite tokens_unfold. cbn [encryptHuffmanCodes_loop].
  destruct (extract ss) as [[t ss']|] eqn:E; [|reflexivity].
  apply extract_shrinks in E as [_ Hlt].
  cbn [fold_tokens]. unfold encryptHuffmanCodes_body.
  destruct (encrypt k (binaryToLong cs t)) as [enc|f]; [|reflexivity].
  cbn [bind]. apply IH. lia.
Qed.

Lemma decryptHuffmanCodes_fold cs k fuel : forall ss result,
  (String.length ss < fuel)%nat ->
  decryptHuffmanCodes_loop cs fuel k ss result =
  fold_tokens (decryptHuffmanCodes_body cs k) (tokens ss) result.
Proof.
  induction fuel as [|fuel IH]; intros ss result Hfuel; [lia|].
  rewrite tokens_unfold. cbn [decryptHuffmanCodes_loop].
  destruct (extract ss) as [[t ss']|] eqn:E; [|reflexivity].
  apply extract_shrinks in E as [_ Hlt].
  cbn [fold_tokens]. unfold decryptHuffmanCodes_body.
  destruct (decrypt k (binaryToLong cs t)) as [dec|f]; [|reflexivity].
  cbn [bind]. apply IH. lia.
Qed.

Lemma decryptString_tokens k s :
  decryptString k s = fold_tokens (decryptString_body k) (tokens s) "".
Proof. unfold decryptString. apply decryptString_fold. lia. Qed.

Lemma encryptHuffmanCodes_tokens cs k s :
  encryptHuffmanCodes cs k s =
  fold_tokens (encryptHuffmanCodes_body cs k) (tokens s) "".
Proof. unfold encryptHuffmanCodes. apply encryptHuffmanCodes_fold. lia. Qed.

Lemma decryptHuffmanCodes_tokens cs k s :
  decryptHuffmanCodes cs k s =
  fold_tokens (decryptHuffmanCodes_body cs k) (tokens s) "".
Proof. unfold decryptHuffmanCodes. apply decryptHuffmanCodes_fold. lia. Qed.

Lemma well_spaced_tokens pieces :
  well_spaced pieces -> Forall is_token (map fst pieces).
Proof.
  induction pieces as [|[t sep] more IH]; intros H; [constructor|].
  destruct H as (Ht & _ & _ & Hmore). constructor; [exact Ht|now apply IH].
Qed.

Lemma single_spaced_pieces ts :
  Forall is_token ts ->
  exists pieces, well_spaced pieces /\ map fst pieces = ts /\
                 join pieces = single_spaced ts.
Proof.
  induction 1 as [|t more Ht Hmore IH]; [now exists []|].
  destruct IH as (pieces & Hwf & Hfst & Hjoin).
  destruct more as [|t' more'].
  - exists [(t, EmptyString)]. split; [|split].
    + split; [exact Ht|]. split; [reflexivity|]. split; [reflexivity|exact I].
    + reflexivity.
    + simpl. now rewrite append_nil_r.
  - exists ((t, space) :: pieces). split; [|split].
    + split; [exact Ht|]. split; [reflexivity|]. split; [discriminate|exact Hwf].
    + simpl. now rewrite Hfst.
    + cbn [join single_spaced]. now rewrite Hjoin.
Qed.

Lemma tokens_single_spaced ts : Forall is_token ts -> tokens (single_spaced ts) = ts.
Proof.
  intros H. destruct (single_spaced_pieces ts H) as (pieces & Hwf & Hfst & Hjoin).
  rewrite <- Hjoin, <- Hfst.
  change (join pieces) with (EmptyString ++ join pieces)%string.
  now apply tokens_join.
Qed.

(** C10. [decryptString] and [decryptHuffmanCodes] see their input as the
    sequence of its tokens: any white space before the first token, any
    non-empty white space between two tokens and any white space after the
    last one give the output of the same tokens separated by single
    spaces; an empty or blank input gives the empty string. *)
Theorem C10_whitespace_splitting cs k :
  (forall lead pieces, blank lead -> well_spaced pieces ->
     decryptString k (lead ++ join pieces) =
     decryptString k (single_spaced (map fst pieces)) /\
     decryptHuffmanCodes cs k (lead ++ join pieces) =
     decryptHuffmanCodes cs k (single_spaced (map fst pieces))) /\
  (forall s, blank s ->
     decryptString k s = Ret EmptyString /\
     decryptHuffmanCodes cs k s = Ret EmptyString).
Proof.
  split.
  - intros lead pieces Hlead Hwf.
    pose proof (well_spaced_tokens pieces Hwf) as Htok.
    rewrite !decryptString_tokens, !decryptHuffmanCodes_tokens.
    rewrite tokens_join, tokens_single_spaced by assumption. now split.
  - intros s Hs.
    rewrite decryptString_tokens, decryptHuffmanCodes_tokens.
    rewrite tokens_blank by exact Hs. now split.
Qed.

Local Open Scope string_scope.
Local Open Scope Z_scope.

Lemma C10_whitespace_splitting_witness :
  decryptString (mkRSA 101 103 10403 10200 65537 10073)
    (" " ++ join [("7347", "   "); ("202", " ")]) =
  decryptString (mkRSA 101 103 10403 10200 65537 10073)
    (single_spaced (map fst [("7347", "   "); ("202", " ")])) /\
  decryptHuffmanCodes true (mkRSA 101 103 10403 10200 65537 10073) "   " =
  Ret EmptyString.
Proof.
  split.
  - apply (proj1 (C10_whitespace_splitting true
                    (mkRSA 101 103 10403 10200 65537 10073))
             " " [("7347", "   "); ("202", " ")])%string.
    + reflexivity.
    + simpl. unfold is_token, blank.
      repeat split; (discriminate || reflexivity).
  - apply (proj2 (C10_whitespace_splitting true
                    (mkRSA 101 103 10403 10200 65537 10073)) "   "%string).
    reflexivity.
Defined.

(** ** Decimal numerals: [to_string] and [stoll] *)

Lemma code_ascii_of_N z : 0 <= z < 256 -> code (ascii_of_N (Z.to_N z)) = z.
Proof.
  intros Hz. unfold code. rewrite N_ascii_embedding by lia. lia.
Qed.

Lemma digit_char_code dgt : 0 <= dgt < 10 -> code (digit_char dgt) = 48 + dgt.
Proof. intros H. unfold digit_char. apply code_ascii_of_N. lia. Qed.

Lemma digit_char_isdigit dgt : 0 <= dgt < 10 -> isdigit (digit_char dgt) = true.
Proof.
  intros H. unfold isdigit. rewrite digit_char_code by exact H.
  apply andb_true_iff. split; apply Z.leb_le; lia.
Qed.

Lemma isdigit_not_space c : isdigit c = true -> isspace c = false.
Proof.
  unfold isdigit, isspace. intros H. apply andb_true_iff in H as [H1 H2].
  apply Z.leb_le in H1, H2.
  destruct (Z.eqb_spec (code c) 32); [lia|].
  destruct (Z.leb_spec 9 (code c)), (Z.leb_spec (code c) 13); simpl; lia || reflexivity.
Qed.

Lemma digits_of_all f fuel : forall z acc,
  (forall dgt, 0 <= dgt < 10 -> f (digit_char dgt) = true) ->
  all_chars f acc = true -> all_chars f (digits_of fuel z acc) = true.
Proof.
  induction fuel as [|fuel IH]; intros z acc Hf Hacc; [exact Hacc|].
  pose proof (Z.mod_pos_bound z 10 ltac:(lia)) as Hd.
  assert (Hacc' : all_chars f (String (digit_char (z mod 10)) acc) = true).
  { cbn [all_chars]. now rewrite Hf, Hacc. }
  cbn [digits_of]. destruct (z <? 10); [exact Hacc'|now apply IH].
Qed.

Lemma digits_of_starts fuel : forall z acc,
  starts_with_digit acc = true \/ fuel <> O ->
  starts_with_digit (digits_of fuel z acc) = true.
Proof.
  induction fuel as [|fuel IH]; intros z acc H.
  - destruct H as [H|H]; [exact H|congruence].
  - pose proof (Z.mod_pos_bound z 10 ltac:(lia)) as Hd.
    cbn [digits_of]. destruct (z <? 10).
    + simpl. now apply digit_char_isdigit.
    + apply IH. left. simpl. now apply digit_char_isdigit.
Qed.

Lemma digits_of_value fuel : forall z acc,
  0 <= z < 10 ^ Z.of_nat fuel ->
  exists scale, forall a,
    digits_value a (digits_of fuel z acc) = digits_value (a * scale + z) acc.
Proof.
  induction fuel as [|fuel IH]; intros z acc Hz.
  - exists 1. intros a. simpl in *. f_equal. lia.
  - rewrite Nat2Z.inj_succ, Z.pow_succ_r in Hz by lia.
    pose proof (Z.mod_pos_bound z 10 ltac:(lia)) as Hd.
    pose proof (Z.div_mod z 10 ltac:(lia)) as Hdm.
    cbn [digits_of]. destruct (Z.ltb_spec z 10) as [Hlt|Hge].
    + exists 10. intros a. cbn [digits_value].
      rewrite digit_char_isdigit, digit_char_code by exact Hd.
      f_equal. rewrite Z.mod_small by lia. lia.
    + destruct (IH (z / 10) (String (digit_char (z mod 10)) acc)) as [scale Hs].
      { split; [apply Z.div_pos; lia|apply Z.div_lt_upper_bound; lia]. }
      exists (scale * 10). intros a. rewrite Hs. cbn [digits_value].
      rewrite digit_char_isdigit, digit_char_code by exact Hd.
      f_equal. lia.
Qed.

Lemma digits_of_parse z :
  0 <= z < 10 ^ 20 -> digits_value 0 (digits_of 20 z "") = z.
Proof.
  intros Hz. destruct (digits_of_value 20 z "" Hz) as [scale Hs].
  rewrite Hs. reflexivity.
Qed.

Lemma skip_ws_nonspace c rest :
  isspace c = false -> skip_ws (String c rest) = String c rest.
Proof. intros H. simpl. now rewrite H. Qed.

Lemma in_range_check v :
  LL.in_range v -> (LL.min_ll <=? v) && (v <=? LL.max_ll) = true.
Proof.
  intros [H1 H2]. apply andb_true_iff. split; now apply Z.leb_le.
Qed.

(** A numeral written by [to_string] is read back by [stoll]. *)
Lemma stoll_to_string z : LL.in_range z -> stoll (to_string z) = Ret z.
Proof.
  intros Hr. pose proof Hr as Hz.
  unfold LL.in_range, LL.min_ll, LL.max_ll, LL.half in Hz.
  unfold to_string, stoll. destruct (Z.ltb_spec z 0) as [Hneg|Hpos].
  - rewrite skip_ws_nonspace by reflexivity.
    change (code (ascii_of_N 45) =? 45) with true. cbn iota.
    rewrite digits_of_starts by (right; discriminate).
    rewrite digits_of_parse by lia.
    rewrite Z.opp_involutive, in_range_check by exact Hr. reflexivity.
  - pose proof (digits_of_starts 20 z "" ltac:(right; discriminate)) as Hstart.
    destruct (digits_of 20 z "") as [|c rest] eqn:E; [discriminate|].
    simpl in Hstart.
    rewrite skip_ws_nonspace by (now apply isdigit_not_space).
    assert (Hc : 48 <= code c <= 57).
    { unfold isdigit in Hstart. apply andb_true_iff in Hstart as [H1 H2].
      apply Z.leb_le in H1, H2. lia. }
    destruct (Z.eqb_spec (code c) 45); [lia|].
    destruct (Z.eqb_spec (code c) 43); [lia|].
    unfold starts_with_digit. rewrite Hstart, <- E, digits_of_parse by lia.
    rewrite in_range_check by exact Hr. reflexivity.
Qed.

Lemma to_string_token z : is_token (to_string z).
Proof.
  assert (Hall : forall x acc,
            all_chars (fun c => negb (isspace c)) acc = true ->
            all_chars (fun c => negb (isspace c)) (digits_of 20 x acc) = true).
  { intros x acc Hacc. apply digits_of_all; [|exact Hacc].
    intros dgt Hd. now rewrite isdigit_not_space by (now apply digit_char_isdigit). }
  unfold to_string, is_token. destruct (z <? 0).
  - split; [discriminate|]. cbn [all_chars]. now rewrite Hall.
  - split; [|now apply Hall].
    pose proof (digits_of_starts 20 z "" ltac:(right; discriminate)) as Hstart.
    destruct (digits_of 20 z ""); [discriminate|discriminate].
Qed.

(** ** The key the constructor builds *)

Lemma prime_65537 : Z.prime 65537.
Proof. apply trial_division_prime. vm_compute. reflexivity. Qed.

(** The public exponent is coprime with [phi] for every pair of draws. *)
Lemma coprime_e_drawn p q :
  100 <= p <= 1000 -> 100 <= q <= 1000 ->
  Z.gcd 65537 ((p - 1) * (q - 1)) = 1.
Proof.
  intros Hp Hq.
  apply Z.coprime_mul_r; apply Z.coprime_prime_small; try exact prime_65537; lia.
Qed.

Lemma RSA_new_shape p q k :
  100 <= p <= 1000 -> 100 <= q <= 1000 -> RSA_new p q = Ret k ->
  n k = p * q /\ e k = 65537 /\ 10000 <= n k <= 1000000.
Proof.
  intros Hp Hq. unfold RSA_new.
  destruct (modInverse _ _) as [d0|f]; [|discriminate].
  cbn [bind]. intros H. injection H as <-. cbn [n e].
  unfold LL.mul. rewrite wrap_in_range.
  - repeat split; nia.
  - unfold LL.in_range, LL.min_ll, LL.max_ll, LL.half. nia.
Qed.

Lemma RSA_new_returns p q :
  100 <= p <= 1000 -> 100 <= q <= 1000 -> returns (RSA_new p q).
Proof.
  intros Hp Hq. unfold RSA_new, LL.mul, LL.sub.
  rewrite (wrap_in_range (p - 1)), (wrap_in_range (q - 1)),
    (wrap_in_range ((p - 1) * (q - 1)));
    try (unfold LL.in_range, LL.min_ll, LL.max_ll, LL.half; nia).
  unfold modInverse. destruct (_ =? 1); [now eexists|].
  destruct (modInverse_loop_coprime
              (S (Z.to_nat (Z.abs ((p - 1) * (q - 1))))) 65537
              ((p - 1) * (q - 1)) 0 1 ltac:(lia) (coprime_e_drawn p q Hp Hq))
    as [x1 ->].
  cbn [bind]. eexists. reflexivity.
Qed.

(** ** The cipher on strings *)

Lemma Ret_inj (A : Type) (a b : A) : Ret a = Ret b -> a = b.
Proof. intros H. now injection H. Qed.

Lemma encrypt_value k m :
  e k = 65537 -> 0 < n k -> (n k - 1) * (n k - 1) <= LL.max_ll ->
  encrypt k m = Ret (Z.rem (m ^ 65537) (n k)).
Proof.
  intros He Hn Hsq. unfold encrypt. rewrite He.
  apply modPow_spec; try assumption; unfold LL.max_ll, LL.half; lia.
Qed.

Lemma drawn_small k :
  10000 <= n k <= 1000000 -> 0 < n k /\ (n k - 1) * (n k - 1) <= LL.max_ll.
Proof. intros H. unfold LL.max_ll, LL.half. nia. Qed.

Lemma space_terminated_join ts :
  space_terminated ts = join (map (fun t => (t, space)) ts).
Proof. induction ts as [|t ts IH]; simpl; [reflexivity|now rewrite IH]. Qed.

Lemma tokens_space_terminated ts :
  Forall is_token ts -> tokens (space_terminated ts) = ts.
Proof.
  intros H. rewrite space_terminated_join.
  change (join ?x) with (EmptyString ++ join x).
  rewrite tokens_join; [| reflexivity |].
  - rewrite map_map. simpl. apply map_id.
  - induction H as [|t ts Ht _ IH]; [exact I|].
    cbn [map well_spaced]. split; [exact Ht|]. split; [reflexivity|].
    split; [discriminate|exact IH].
Qed.

(** A loop whose body appends one space-terminated word per token. *)
Lemma fold_tokens_words body word ts : forall result,
  (forall t, In t ts -> body t = Ret (word t ++ space)) ->
  fold_tokens body ts result = Ret (result ++ space_terminated (map word ts)).
Proof.
  induction ts as [|t ts IH]; intros result Hbody.
  - simpl. now rewrite append_nil_r.
  - cbn [fold_tokens map space_terminated].
    rewrite (Hbody t (or_introl eq_refl)). cbn [bind].
    rewrite IH by (intros t' Ht'; apply Hbody; now right).
    now rewrite !append_assoc.
Qed.

Lemma encryptString_loop_words cs k :
  e k = 65537 -> 0 < n k -> (n k - 1) * (n k - 1) <= LL.max_ll ->
  forall message result,
    encryptString_loop cs k message result =
    Ret (result ++
         space_terminated
           (map (fun c => to_string (Z.rem (char_to_ll cs c ^ 65537) (n k)))
                (list_ascii_of_string message))).
Proof.
  intros He Hn Hsq. induction message as [|c rest IH]; intros result.
  - simpl. now rewrite append_nil_r.
  - cbn [encryptString_loop list_ascii_of_string map space_terminated].
    rewrite encrypt_value by assumption. cbn [bind].
    rewrite IH. now rewrite !append_assoc.
Qed.

Lemma length_list_ascii s : List.length (list_ascii_of_string s) = String.length s.
Proof. induction s as [|c s IH]; simpl; [reflexivity|now rewrite IH]. Qed.

Lemma char_to_ll_range cs c : -128 <= char_to_ll cs c <= 255.
Proof.
  unfold char_to_ll, code.
  pose proof (N_ascii_bounded c). 
  destruct (cs && (128 <=? Z.of_N (N_of_ascii c))) eqn:E.
  - apply andb_true_iff in E as [_ E]. apply Z.leb_le in E. lia.
  - lia.
Qed.

Lemma ll_to_char_to_ll cs c : ll_to_char (char_to_ll cs c) = c.
Proof.
  unfold ll_to_char, char_to_ll, code.
  pose proof (N_ascii_bounded c) as Hb.
  assert (Hmod : forall x, x = Z.of_N (N_of_ascii c) \/ x = Z.of_N (N_of_ascii c) - 256 ->
                 x mod 256 = Z.of_N (N_of_ascii c)).
  { intros x [-> | ->].
    - apply Z.mod_small. lia.
    - replace (Z.of_N (N_of_ascii c) - 256)
        with (Z.of_N (N_of_ascii c) + (-1) * 256) by lia.
      rewrite Z.mod_add by lia. apply Z.mod_small. lia. }
  rewrite Hmod by (destruct (cs && _); auto).
  rewrite N2Z.id. apply ascii_N_embedding.
Qed.

Lemma fold_tokens_chars body word chars : forall result,
  (forall c, In c chars -> body (word c) = Ret (String c EmptyString)) ->
  fold_tokens body (map word chars) result =
  Ret (result ++ string_of_list_ascii chars).
Proof.
  induction chars as [|c chars IH]; intros result Hbody.
  - simpl. now rewrite append_nil_r.
  - cbn [map fold_tokens string_of_list_ascii].
    rewrite (Hbody c (or_introl eq_refl)). cbn [bind].
    rewrite IH by (intros c' Hc'; apply Hbody; now right).
    now rewrite append_assoc.
Qed.

(** One character through [encryptString] and back through the body of
    the loop of [decryptString]. *)
Lemma decryptString_body_encrypted cs p q k c :
  Z.prime p -> Z.prime q -> p <> q ->
  100 <= p <= 1000 -> 100 <= q <= 1000 -> RSA_new p q = Ret k ->
  decryptString_body k (to_string (Z.rem (char_to_ll cs c ^ 65537) (n k))) =
  Ret (String c EmptyString).
Proof.
  intros Hp Hq Hne Hrp Hrq Hk.
  destruct (RSA_new_shape p q k Hrp Hrq Hk) as (Hn & He & Hnr).
  destruct (drawn_small k Hnr) as [Hpos Hsq].
  pose proof (char_to_ll_range cs c) as Hm.
  assert (Hsmall : (p * q - 1) * (p * q - 1) <= LL.max_ll) by (rewrite <- Hn; exact Hsq).
  destruct (number_roundtrip p q Hp Hq Hne Hsmall (coprime_e_drawn p q Hrp Hrq)
              k (char_to_ll cs c) Hk ltac:(lia)) as (z & Henc & Hz & Hdec).
  rewrite encrypt_value in Henc by assumption. apply Ret_inj in Henc.
  rewrite Henc. clear Henc.
  unfold decryptString_body. rewrite stoll_to_string.
  - cbn [bind]. rewrite Hdec. cbn [bind]. now rewrite ll_to_char_to_ll.
  - unfold LL.in_range, LL.min_ll, LL.max_ll, LL.half. lia.
Qed.

(** C6, for distinct primes.  For a key built by the constructor
    from two distinct primes of [100 .. 1000], [decryptString] undoes
    [encryptString] on every string; every character code is below [n]. *)
Theorem C6_decryptString_encryptString cs p q k s :
  Z.prime p -> Z.prime q -> p <> q ->
  100 <= p <= 1000 -> 100 <= q <= 1000 -> RSA_new p q = Ret k ->
  Z.gcd (e k) (phi k) = 1 /\
  (forall c, In c (list_ascii_of_string s) -> char_to_ll cs c < n k) /\
  (c <- encryptString cs k s ;; decryptString k c) = Ret s.
Proof.
  intros Hp Hq Hne Hrp Hrq Hk.
  destruct (RSA_new_shape p q k Hrp Hrq Hk) as (Hn & He & Hnr).
  destruct (drawn_small k Hnr) as [Hpos Hsq].
  split; [|split].
  - pose proof (coprime_e_drawn p q Hrp Hrq) as Hg.
    unfold RSA_new in Hk. destruct (modInverse _ _); [|discriminate].
    injection Hk as <-. cbn [e phi]. unfold LL.mul, LL.sub.
    rewrite (wrap_in_range (p - 1)), (wrap_in_range (q - 1)),
      (wrap_in_range ((p - 1) * (q - 1)));
      [exact Hg | | | ];
      unfold LL.in_range, LL.min_ll, LL.max_ll, LL.half; nia.
  - intros c _. pose proof (char_to_ll_range cs c). lia.
  - unfold encryptString.
    rewrite encryptString_loop_words by assumption. cbn [bind append].
    rewrite decryptString_tokens, tokens_space_terminated.
    + rewrite fold_tokens_chars.
      * cbn [append]. now rewrite string_of_list_ascii_of_string.
      * intros c _. now apply (decryptString_body_encrypted cs p q).
    + apply Forall_forall. intros t Ht. apply in_map_iff in Ht as (c & <- & _).
      apply to_string_token.
Qed.

Lemma C6_decryptString_encryptString_witness :
  Z.gcd (e (mkRSA 101 103 10403 10200 65537 10073))
        (phi (mkRSA 101 103 10403 10200 65537 10073)) = 1 /\
  (forall c, In c (list_ascii_of_string "Hello, World!") ->
     char_to_ll true c < n (mkRSA 101 103 10403 10200 65537 10073)) /\
  (c <- encryptString true (mkRSA 101 103 10403 10200 65537 10073)
          "Hello, World!" ;;
   decryptString (mkRSA 101 103 10403 10200 65537 10073) c) =
  Ret "Hello, World!".
Proof.
  apply (C6_decryptString_encryptString true 101 103
           (mkRSA 101 103 10403 10200 65537 10073) "Hello, World!"
           prime_101 prime_103);
    [lia | lia | lia | vm_compute; reflexivity].
Defined.

(** C6 as stated fails when the two draws coincide: with [p = q = 101],
    where [gcd e phi = 1], the character ['e'] has code [101], a multiple of
    [p]; it encrypts to [0] and comes back as the character of code [0]. *)
Lemma C6_counterexample :
  RSA_new 101 101 = Ret (mkRSA 101 101 10201 10000 65537 3473) /\
  Z.gcd 65537 10000 = 1 /\
  char_to_ll true (ascii_of_N 101) < 10201 /\
  (c <- encryptString true (mkRSA 101 101 10201 10000 65537 3473) "e" ;;
   decryptString (mkRSA 101 101 10201 10000 65537 3473) c) =
  Ret (String (ascii_of_N 0) EmptyString).
Proof.
  split; [vm_compute; reflexivity|]. split; [reflexivity|].
  split; [reflexivity|]. vm_compute. reflexivity.
Qed.

Lemma Forall2_map_r (A B : Type) (P : A -> B -> Prop) (g : A -> B) l :
  (forall x, In x l -> P x (g x)) -> Forall2 P l (map g l).
Proof.
  induction l as [|x l IH]; intros H; [constructor|].
  constructor; [apply H; now left|]. apply IH. intros y Hy. apply H. now right.
Qed.

(** Every string is a run of white space followed by tokens, each with
    the white space after it. *)
Lemma every_string_splits s :
  exists lead pieces,
    blank lead /\ well_spaced pieces /\ s = (lead ++ join pieces)%string.
Proof.
  induction s as [|c s (lead & pieces & Hlead & Hwf & Hs)].
  - exists EmptyString, []. repeat split.
  - destruct (isspace c) eqn:Ec.
    + exists (String c lead), pieces. split; [|split; [exact Hwf|]].
      * unfold blank in *. cbn [all_chars]. now rewrite Ec, Hlead.
      * cbn [append]. now rewrite Hs.
    + assert (Hc : is_token (String c EmptyString)).
      { split; [discriminate|]. cbn [all_chars]. now rewrite Ec. }
      destruct lead as [|a lead'].
      * destruct pieces as [|[t sep] more].
        -- exists EmptyString, [(String c EmptyString, EmptyString)].
           split; [reflexivity|]. split.
           ++ cbn [well_spaced]. repeat split; [apply Hc|apply Hc].
           ++ rewrite Hs. reflexivity.
        -- exists EmptyString, ((String c t, sep) :: more).
           split; [reflexivity|]. split.
           ++ destruct Hwf as ((_ & Ht) & Hsep & Hlast & Hmore).
              cbn [well_spaced]. split; [|auto].
              split; [discriminate|]. cbn [all_chars]. now rewrite Ec, Ht.
           ++ rewrite Hs. reflexivity.
      * exists EmptyString, ((String c EmptyString, String a lead') :: pieces).
        split; [reflexivity|]. split.
        -- cbn [well_spaced]. split; [exact Hc|]. split; [exact Hlead|].
           split; [discriminate|exact Hwf].
        -- rewrite Hs. reflexivity.
Qed.

(** C8, for tokens that an [int] can measure.  For a key built by the
    constructor, [encryptString] writes one decimal numeral per character
    of the input, each followed by a single space.  An input of
    [encryptHuffmanCodes] is some white space [lead] and then tokens, each
    with the white space after it ([pieces]); every string is of this
    form.  When every token is at most [INT_MAX] characters long, the
    output is one word of binary digits per token, of the length of that
    token, each followed by a single space. *)
Theorem C8_output_format cs p q k :
  100 <= p <= 1000 -> 100 <= q <= 1000 -> RSA_new p q = Ret k ->
  (forall message, exists zs,
     List.length zs = String.length message /\
     encryptString cs k message = Ret (space_terminated (map to_string zs)) /\
     Forall (fun z => is_token (to_string z) /\ stoll (to_string z) = Ret z) zs) /\
  (forall codes, exists lead pieces,
     blank lead /\ well_spaced pieces /\ codes = (lead ++ join pieces)%string) /\
  (forall lead pieces, blank lead -> well_spaced pieces ->
     Forall (fun token => Z.of_nat (String.length token) <= Int.max_int)
            (map fst pieces) ->
     exists outs,
       encryptHuffmanCodes cs k (lead ++ join pieces) =
       Ret (space_terminated outs) /\
       Forall2 (fun token out =>
                  String.length out = String.length token /\ binary out)
               (map fst pieces) outs).
Proof.
  intros Hrp Hrq Hk.
  destruct (RSA_new_shape p q k Hrp Hrq Hk) as (Hn & He & Hnr).
  destruct (drawn_small k Hnr) as [Hpos Hsq].
  split; [|split].
  - intros message.
    exists (map (fun c => Z.rem (char_to_ll cs c ^ 65537) (n k))
                (list_ascii_of_string message)).
    split; [now rewrite length_map, length_list_ascii|]. split.
    + unfold encryptString. rewrite encryptString_loop_words by assumption.
      cbn [append]. now rewrite map_map.
    + apply Forall_forall. intros z Hz. apply in_map_iff in Hz as (c & <- & _).
      split; [apply to_string_token|].
      apply stoll_to_string.
      pose proof (Z.rem_bound_abs (char_to_ll cs c ^ 65537) (n k) ltac:(lia)) as Hb.
      revert Hb. generalize (Z.rem (char_to_ll cs c ^ 65537) (n k)). intros z Hb.
      unfold LL.in_range, LL.min_ll, LL.max_ll, LL.half. lia.
  - apply every_string_splits.
  - intros lead pieces Hlead Hwf Hshort.
    set (word := fun t => longToBinary (Z.rem (binaryToLong cs t ^ 65537) (n k))
                            (Z.of_nat (String.length t))).
    exists (map word (map fst pieces)). split.
    + rewrite encryptHuffmanCodes_tokens, (tokens_join pieces lead Hlead Hwf).
      rewrite (fold_tokens_words _ word).
      * reflexivity.
      * intros t Ht. unfold encryptHuffmanCodes_body.
        rewrite Forall_forall in Hshort.
        rewrite of_size_small by (split; [lia|now apply Hshort]).
        rewrite encrypt_value by assumption. reflexivity.
    + apply Forall2_map_r. intros t _. unfold word, longToBinary. split.
      * now rewrite longToBinary_length, Nat2Z.id.
      * apply longToBinary_binary.
Qed.

Lemma C8_output_format_witness :
  (exists zs,
     List.length zs = String.length "Hi" /\
     encryptString true (mkRSA 101 103 10403 10200 65537 10073) "Hi" =
     Ret (space_terminated (map to_string zs)) /\
     Forall (fun z => is_token (to_string z) /\ stoll (to_string z) = Ret z) zs) /\
  (exists lead pieces,
     blank lead /\ well_spaced pieces /\
     "010 1101 00" = (lead ++ join pieces)%string) /\
  (exists outs,
     encryptHuffmanCodes true (mkRSA 101 103 10403 10200 65537 10073)
       ("" ++ join [("010", " "); ("1101", " "); ("00", "")]) =
     Ret (space_terminated outs) /\
     Forall2 (fun token out =>
                String.length out = String.length token /\ binary out)
             (map fst [("010", " "); ("1101", " "); ("00", "")]) outs).
Proof.
  destruct (C8_output_format true 101 103
              (mkRSA 101 103 10403 10200 65537 10073)) as (Hs & Hall & Hc);
    [lia | lia | vm_compute; reflexivity |].
  split; [apply (Hs "Hi")|]. split; [apply (Hall "010 1101 00")|].
  apply (Hc "" [("010", " "); ("1101", " "); ("00", "")])%string.
  - reflexivity.
  - simpl. unfold is_token, blank.
    repeat split; (discriminate || reflexivity).
  - repeat constructor; unfold Int.max_int, Int.half; simpl; lia.
Defined.

(** A token of [2 ^ 31 + 1] characters: its length becomes the [int]
    [1 - 2 ^ 31], for which the loop of [longToBinary] makes no round. *)
Lemma zeros_length n : String.length (zeros n) = n.
Proof. induction n as [|n IH]; simpl; [reflexivity|now rewrite IH]. Qed.

Lemma zeros_token n : n <> O -> is_token (zeros n).
Proof.
  intros Hn. split; [destruct n; [congruence|discriminate]|].
  clear Hn. induction n as [|n IH]; [reflexivity|exact IH].
Qed.

Lemma binaryToLong_zeros cs n : binaryToLong cs (zeros n) = 0.
Proof.
  unfold binaryToLong. induction n as [|n IH]; [reflexivity|].
  cbn [zeros binaryToLong_loop].
  replace (Z.lor (LL.shl 0 1) (char_to_ll cs (ascii_of_N 48) - 48)) with 0
    by (destruct cs; reflexivity).
  exact IH.
Qed.

Lemma encryptHuffmanCodes_wide_token cs p q k n :
  100 <= p <= 1000 -> 100 <= q <= 1000 -> RSA_new p q = Ret k ->
  Z.of_nat n = 2147483649 ->
  is_token (zeros n) /\
  Z.of_nat (String.length (zeros n)) = 2147483649 /\
  Int.of_size 2147483649 = -2147483647 /\
  encryptHuffmanCodes cs k (zeros n) = Ret space /\
  ~ (exists outs,
       encryptHuffmanCodes cs k (zeros n) = Ret (space_terminated outs) /\
       Forall2 (fun token out =>
                  String.length out = String.length token /\ binary out)
               [zeros n] outs).
Proof.
  intros Hrp Hrq Hk Hn.
  destruct (RSA_new_shape p q k Hrp Hrq Hk) as (Hnk & He & Hnr).
  destruct (drawn_small k Hnr) as [Hpos Hsq].
  assert (Htok : is_token (zeros n)) by (apply zeros_token; lia).
  assert (Hout : encryptHuffmanCodes cs k (zeros n) = Ret space).
  { rewrite encryptHuffmanCodes_tokens.
    rewrite <- (append_nil_r (zeros n)) at 1.
    change (zeros n ++ "")%string
      with (EmptyString ++ join [(zeros n, EmptyString)])%string.
    rewrite tokens_join; [|reflexivity|cbn [well_spaced]; repeat split; apply Htok].
    cbn [map fst fold_tokens]. unfold encryptHuffmanCodes_body.
    rewrite binaryToLong_zeros, encrypt_value by assumption.
    rewrite Z.pow_0_l, Z.rem_0_l by lia. cbn [bind].
    rewrite zeros_length, Hn. reflexivity. }
  split; [exact Htok|]. split; [now rewrite zeros_length|].
  split; [reflexivity|]. split; [exact Hout|].
  intros (outs & Houts & Hall). rewrite Hout in Houts. apply Ret_inj in Houts.
  inversion Hall as [|t out ts outs' [Hlen _] Hrest]; subst.
  apply (f_equal String.length) in Houts.
  cbn [space_terminated] in Houts. rewrite length_append, Hlen, zeros_length in Houts.
  simpl in Houts. lia.
Qed.

(** C8 as stated fails for a token that an [int] cannot measure.  The token
    of [2 ^ 31 + 1] characters ['0'] has the value [0], which is encrypted
    to [0]; [token.length()] becomes [bits = 1 - 2 ^ 31], so
    [longToBinary] writes nothing and the output is a lone space: no
    output token stands for the input token. *)
Lemma C8_counterexample :
  is_token (zeros (Z.to_nat 2147483649)) /\
  Z.of_nat (String.length (zeros (Z.to_nat 2147483649))) = 2147483649 /\
  Int.of_size 2147483649 = -2147483647 /\
  encryptHuffmanCodes true (mkRSA 101 103 10403 10200 65537 10073)
    (zeros (Z.to_nat 2147483649)) = Ret space /\
  ~ (exists outs,
       encryptHuffmanCodes true (mkRSA 101 103 10403 10200 65537 10073)
         (zeros (Z.to_nat 2147483649)) = Ret (space_terminated outs) /\
       Forall2 (fun token out =>
                  String.length out = String.length token /\ binary out)
               [zeros (Z.to_nat 2147483649)] outs).
Proof.
  apply (encryptHuffmanCodes_wide_token true 101 103
           (mkRSA 101 103 10403 10200 65537 10073) (Z.to_nat 2147483649)).
  - lia.
  - lia.
  - vm_compute. reflexivity.
  - apply Z2Nat.id. lia.
Qed.

(** ** The cipher on Huffman codes *)

Lemma read_word_no_space ss : forall w r,
  read_word ss = (w, r) -> all_chars (fun c => negb (isspace c)) w = true.
Proof.
  induction ss as [|c ss IH]; intros w r H; simpl in H.
  - now injection H as <- _.
  - destruct (isspace c) eqn:Ec.
    + now injection H as <- _.
    + destruct (read_word ss) as [w' r'] eqn:E. injection H as <- _.
      cbn [all_chars]. rewrite Ec. simpl. exact (IH w' r' eq_refl).
Qed.

Lemma extract_is_token ss token ss' :
  extract ss = Some (token, ss') -> is_token token.
Proof.
  intros H. split; [exact (proj1 (extract_shrinks _ _ _ H))|].
  unfold extract in H. destruct (skip_ws ss) as [|c rest]; [discriminate|].
  apply (read_word_no_space (String c rest) token ss').
  now injection H.
Qed.

Lemma tokens_loop_are_tokens fuel : forall ss, Forall is_token (tokens_loop fuel ss).
Proof.
  induction fuel as [|fuel IH]; intros ss; [constructor|].
  simpl. destruct (extract ss) as [[t ss']|] eqn:E; [|constructor].
  constructor; [exact (extract_is_token _ _ _ E)|apply IH].
Qed.

Lemma tokens_are_tokens ss : Forall is_token (tokens ss).
Proof. apply tokens_loop_are_tokens. Qed.

Lemma is_bit_not_space c : is_bit c = true -> isspace c = false.
Proof.
  unfold is_bit, isspace. intros H. apply orb_true_iff in H.
  destruct H as [H|H]; apply Z.eqb_eq in H; rewrite H; reflexivity.
Qed.

Lemma binary_no_space t :
  binary t -> all_chars (fun c => negb (isspace c)) t = true.
Proof.
  unfold binary. induction t as [|c t IH]; [reflexivity|].
  cbn [all_chars]. intros H. apply andb_true_iff in H as [Hc Ht].
  now rewrite (is_bit_not_space c Hc), IH.
Qed.

Lemma code_inj c c' : code c = code c' -> c = c'.
Proof.
  unfold code. intros H. apply N2Z.inj in H.
  now rewrite <- (ascii_N_embedding c), <- (ascii_N_embedding c'), H.
Qed.

(** Two strings of binary digits of the same length that denote the same
    number are equal. *)
Lemma big_endian_value_inj s : forall s',
  binary s -> binary s' -> String.length s = String.length s' ->
  big_endian_value s = big_endian_value s' -> s = s'.
Proof.
  unfold binary. induction s as [|c s IH]; intros [|c' s'] Hb Hb' Hlen Hval;
    try discriminate; [reflexivity|].
  cbn [all_chars] in Hb, Hb'.
  apply andb_true_iff in Hb as [Hc Hs], Hb' as [Hc' Hs'].
  simpl in Hlen. injection Hlen as Hlen.
  cbn [big_endian_value] in Hval. rewrite <- Hlen in Hval.
  pose proof (big_endian_value_bound s) as B.
  pose proof (big_endian_value_bound s') as B'. rewrite <- Hlen in B'.
  assert (Hbits : forall x, is_bit x = true -> code x = 48 \/ code x = 49).
  { intros x Hx. unfold is_bit in Hx. apply orb_true_iff in Hx.
    destruct Hx as [Hx|Hx]; apply Z.eqb_eq in Hx; auto. }
  apply Hbits in Hc, Hc'.
  assert (Hpow : 0 < 2 ^ Z.of_nat (String.length s)) by (apply Z.pow_pos_nonneg; lia).
  assert (Hcc : code c = code c' /\ big_endian_value s = big_endian_value s').
  { destruct (Z.eqb_spec (code c) 49) as [E|E], (Z.eqb_spec (code c') 49) as [E'|E'];
      split; nia. }
  destruct Hcc as [Hcode Hrest].
  f_equal; [now apply code_inj|now apply IH].
Qed.

Lemma longToBinary_of_value t :
  binary t -> (String.length t <= 64)%nat ->
  longToBinary (big_endian_value t) (Z.of_nat (String.length t)) = t.
Proof.
  intros Hb Hlen. unfold longToBinary. rewrite Nat2Z.id.
  apply big_endian_value_inj;
    [apply longToBinary_binary | exact Hb | apply longToBinary_length |].
  rewrite longToBinary_value by exact Hlen.
  apply Z.mod_small, big_endian_value_bound.
Qed.

Lemma fold_tokens_map (A : Type) body (f g : A -> string) xs : forall result,
  (forall x, In x xs -> body (f x) = Ret (g x ++ space)) ->
  fold_tokens body (map f xs) result =
  Ret (result ++ space_terminated (map g xs)).
Proof.
  induction xs as [|x xs IH]; intros result Hbody.
  - simpl. now rewrite append_nil_r.
  - cbn [fold_tokens map space_terminated].
    rewrite (Hbody x (or_introl eq_refl)). cbn [bind].
    rewrite IH by (intros x' Hx'; apply Hbody; now right).
    now rewrite !append_assoc.
Qed.

Lemma binaryToLong_longToBinary cs v w :
  0 <= v <= LL.max_ll -> 0 <= w <= 64 ->
  binaryToLong cs (longToBinary v w) = v mod 2 ^ w.
Proof.
  intros Hv Hw. unfold longToBinary.
  assert (Hval : big_endian_value (longToBinary_loop v (Z.to_nat w) "") = v mod 2 ^ w).
  { rewrite longToBinary_value by lia. now rewrite Z2Nat.id by lia. }
  rewrite binaryToLong_value, Hval; [reflexivity|apply longToBinary_binary|].
  rewrite Hval.
  pose proof (Z.mod_le v (2 ^ w) ltac:(lia) ltac:(apply Z.pow_pos_nonneg; lia)).
  lia.
Qed.

Lemma longToBinary_width v (w : nat) :
  String.length (longToBinary v (Z.of_nat w)) = w.
Proof. unfold longToBinary. now rewrite longToBinary_length, Nat2Z.id. Qed.

(** One code through [encryptHuffmanCodes] and back through the body of
    the loop of [decryptHuffmanCodes]. *)
Lemma decryptHuffmanCodes_body_encrypted cs p q k t :
  Z.prime p -> Z.prime q -> p <> q ->
  100 <= p <= 1000 -> 100 <= q <= 1000 -> RSA_new p q = Ret k ->
  code_fits k t ->
  decryptHuffmanCodes_body cs k
    (longToBinary (Z.rem (binaryToLong cs t ^ 65537) (n k))
                  (Z.of_nat (String.length t))) =
  Ret (t ++ space).
Proof.
  intros Hp Hq Hne Hrp Hrq Hk (Hbin & Hlen & Hval & Hfit).
  destruct (RSA_new_shape p q k Hrp Hrq Hk) as (Hn & He & Hnr).
  destruct (drawn_small k Hnr) as [Hpos Hsq].
  pose proof (big_endian_value_bound t) as [Hv0 _].
  assert (Hmax : big_endian_value t <= LL.max_ll)
    by (unfold LL.max_ll, LL.half; lia).
  rewrite (binaryToLong_value cs t Hbin Hmax).
  assert (Hsmall : (p * q - 1) * (p * q - 1) <= LL.max_ll) by (rewrite <- Hn; exact Hsq).
  destruct (number_roundtrip p q Hp Hq Hne Hsmall (coprime_e_drawn p q Hrp Hrq)
              k (big_endian_value t) Hk ltac:(lia)) as (c & Henc & Hc & Hdec).
  pose proof (Hfit c Henc) as Hwidth.
  assert (Hc0 : 0 <= Z.rem (big_endian_value t ^ 65537) (n k)).
  { apply Z.rem_nonneg; [lia|]. apply Z.pow_nonneg. exact Hv0. }
  rewrite encrypt_value in Henc by assumption. apply Ret_inj in Henc.
  rewrite Henc in *. clear Henc.
  unfold decryptHuffmanCodes_body.
  rewrite binaryToLong_longToBinary by (unfold LL.max_ll, LL.half; lia).
  rewrite Z.mod_small by lia. rewrite Hdec. cbn [bind].
  rewrite longToBinary_width, of_size_width by exact Hlen.
  now rewrite longToBinary_of_value.
Qed.

(** C7, up to the layout of the output.  For a key built by the constructor from two distinct
    primes of [100 .. 1000] and an input whose tokens are Huffman codes that
    fit (binary digits, at most 64 of them, a value below [n], an encrypted
    value within the width of the token), [decryptHuffmanCodes] applied to
    the output of [encryptHuffmanCodes] gives back the tokens of the input,
    each followed by a single space; this is the input itself when the
    input is written that way. *)
Theorem C7_decryptHuffmanCodes_encryptHuffmanCodes cs p q k codes :
  Z.prime p -> Z.prime q -> p <> q ->
  100 <= p <= 1000 -> 100 <= q <= 1000 -> RSA_new p q = Ret k ->
  Forall (code_fits k) (tokens codes) ->
  (c <- encryptHuffmanCodes cs k codes ;; decryptHuffmanCodes cs k c) =
  Ret (space_terminated (tokens codes)) /\
  (forall ts, Forall is_token ts -> codes = space_terminated ts ->
     (c <- encryptHuffmanCodes cs k codes ;; decryptHuffmanCodes cs k c) =
     Ret codes).
Proof.
  intros Hp Hq Hne Hrp Hrq Hk Hfits.
  destruct (RSA_new_shape p q k Hrp Hrq Hk) as (Hn & He & Hnr).
  destruct (drawn_small k Hnr) as [Hpos Hsq].
  set (word := fun t => longToBinary (Z.rem (binaryToLong cs t ^ 65537) (n k))
                          (Z.of_nat (String.length t))).
  assert (Hmain : (c <- encryptHuffmanCodes cs k codes ;; decryptHuffmanCodes cs k c) =
                  Ret (space_terminated (tokens codes))).
  { rewrite encryptHuffmanCodes_tokens, (fold_tokens_words _ word).
    2:{ intros t Ht. unfold encryptHuffmanCodes_body.
        rewrite Forall_forall in Hfits. destruct (Hfits t Ht) as (_ & Hlen & _).
        rewrite of_size_width by exact Hlen.
        rewrite encrypt_value by assumption. reflexivity. }
    cbn [bind append].
    rewrite decryptHuffmanCodes_tokens, tokens_space_terminated.
    - rewrite (fold_tokens_map _ _ word (fun t => t)).
      + cbn [append]. now rewrite map_id.
      + intros t Ht. apply (decryptHuffmanCodes_body_encrypted cs p q); auto.
        rewrite Forall_forall in Hfits. now apply Hfits.
    - apply Forall_forall. intros w Hw. apply in_map_iff in Hw as (t & <- & Ht).
      pose proof (tokens_are_tokens codes) as Htok.
      rewrite Forall_forall in Htok. destruct (Htok t Ht) as [Hne' _].
      unfold word, longToBinary. split.
      + intros Hempty. apply (f_equal String.length) in Hempty.
        rewrite longToBinary_length, Nat2Z.id in Hempty.
        destruct t; [congruence|discriminate].
      + apply binary_no_space, longToBinary_binary. }
  split; [exact Hmain|].
  intros ts Hts Hcodes. rewrite Hmain. f_equal.
  rewrite Hcodes at 1. now rewrite tokens_space_terminated.
Qed.

Lemma C7_decryptHuffmanCodes_encryptHuffmanCodes_witness :
  (c <- encryptHuffmanCodes true (mkRSA 101 103 10403 10200 65537 10073)
          "00000000000101 10000000000000 " ;;
   decryptHuffmanCodes true (mkRSA 101 103 10403 10200 65537 10073) c) =
  Ret (space_terminated (tokens "00000000000101 10000000000000 ")) /\
  (forall ts, Forall is_token ts ->
     "00000000000101 10000000000000 " = space_terminated ts ->
     (c <- encryptHuffmanCodes true (mkRSA 101 103 10403 10200 65537 10073)
             "00000000000101 10000000000000 " ;;
      decryptHuffmanCodes true (mkRSA 101 103 10403 10200 65537 10073) c) =
     Ret "00000000000101 10000000000000 ").
Proof.
  apply (C7_decryptHuffmanCodes_encryptHuffmanCodes true 101 103
           (mkRSA 101 103 10403 10200 65537 10073)
           "00000000000101 10000000000000 " prime_101 prime_103);
    [lia | lia | lia | vm_compute; reflexivity | ].
  change (tokens "00000000000101 10000000000000 ")
    with ["00000000000101"; "10000000000000"].
  apply Forall_cons; [|apply Forall_cons; [|apply Forall_nil]];
    (split; [reflexivity|]; split; [simpl; lia|];
     split; [vm_compute; reflexivity|];
     intros c Hc; vm_compute in Hc; apply Ret_inj in Hc; subst c;
     vm_compute; reflexivity).
Defined.

(** C7 as stated fails.  The output ends every token with a space, so the
    input ["0"] comes back as ["0 "]; with [p = q = 101] the code
    ["1100101"] of value [101] comes back as ["0000000"]; and a code of 65
    digits needs the shift [>> 64], so the code of value [1] comes back
    with a leading ['1']. *)
Lemma C7_counterexample :
  (code_fits (mkRSA 101 103 10403 10200 65537 10073) "0" /\
   (c <- encryptHuffmanCodes true (mkRSA 101 103 10403 10200 65537 10073) "0" ;;
    decryptHuffmanCodes true (mkRSA 101 103 10403 10200 65537 10073) c) =
   Ret "0 ") /\
  (RSA_new 101 101 = Ret (mkRSA 101 101 10201 10000 65537 3473) /\
   code_fits (mkRSA 101 101 10201 10000 65537 3473) "1100101" /\
   (c <- encryptHuffmanCodes true (mkRSA 101 101 10201 10000 65537 3473)
           "1100101 " ;;
    decryptHuffmanCodes true (mkRSA 101 101 10201 10000 65537 3473) c) =
   Ret "0000000 ") /\
  (big_endian_value
     "00000000000000000000000000000000000000000000000000000000000000001" = 1 /\
   encrypt (mkRSA 101 103 10403 10200 65537 10073) 1 = Ret 1 /\
   (c <- encryptHuffmanCodes true (mkRSA 101 103 10403 10200 65537 10073)
           "00000000000000000000000000000000000000000000000000000000000000001 " ;;
    decryptHuffmanCodes true (mkRSA 101 103 10403 10200 65537 10073) c) =
   Ret "10000000000000000000000000000000000000000000000000000000000000001 ").
Proof.
  assert (Hfit : forall k t bound,
            binary t -> (String.length t <= 64)%nat ->
            big_endian_value t < n k ->
            encrypt k (big_endian_value t) = Ret bound ->
            bound < 2 ^ Z.of_nat (String.length t) -> code_fits k t).
  { intros k t bound Hb Hl Hv He Hw. repeat split; auto.
    intros c Hc. rewrite He in Hc. apply Ret_inj in Hc. now subst c. }
  split; [split|split; [split; [|split]|split; [|split]]];
    try (vm_compute; reflexivity).
  - apply (Hfit _ _ 0);
      [reflexivity | simpl; lia | vm_compute; reflexivity ..].
  - apply (Hfit _ _ 0);
      [reflexivity | simpl; lia | vm_compute; reflexivity ..].
Qed.

(** * Further properties of the code *)

(** ** [isPrime] on the whole range where [i * i] cannot overflow *)

Lemma sqrt_bound n : n <= 2 ^ 62 -> Z.sqrt n <= 2 ^ 31.
Proof.
  intros H. destruct (Z_lt_le_dec n 0) as [Hneg|Hpos].
  - rewrite Z.sqrt_neg by exact Hneg. lia.
  - change (2 ^ 31) with (Z.sqrt (2 ^ 62)). apply Z.sqrt_le_mono. exact H.
Qed.

Lemma mul_small i : 0 <= i <= 2 ^ 31 + 6 -> LL.mul i i = i * i.
Proof.
  intros H. unfold LL.mul. apply wrap_in_range.
  unfold LL.in_range, LL.min_ll, LL.max_ll, LL.half. nia.
Qed.

Lemma add_small i c : 0 <= i <= 2 ^ 31 + 6 -> 0 <= c <= 6 -> LL.add i c = i + c.
Proof.
  intros H Hc. unfold LL.add. apply wrap_in_range.
  unfold LL.in_range, LL.min_ll, LL.max_ll, LL.half. lia.
Qed.

Lemma proper_divisor_not_prime n c : 1 < c < n -> (c | n) -> ~ Z.prime n.
Proof. intros Hc Hd [_ Hp]. exact (Hp c Hc Hd). Qed.

(** The stride of 6 skips only multiples of 2 and of 3. *)
Lemma stride_keeps_invariant n i :
  i mod 6 = 5 -> 5 <= i ->
  (forall c, 1 < c < i -> ~ (c | n)) ->
  ~ (i | n) -> ~ (i + 2 | n) ->
  forall c, 1 < c < i + 6 -> ~ (c | n).
Proof.
  intros Hmod Hi Hinv Hn0 Hn2 c Hc Hd.
  destruct (Z_lt_le_dec c i) as [Hlt|Hge]; [exact (Hinv c ltac:(lia) Hd)|].
  pose proof (Z.div_mod i 6 ltac:(lia)) as Hdm. rewrite Hmod in Hdm.
  assert (Hcases : c = i \/ c = i + 2 \/ (2 | c) \/ (3 | c)).
  { assert (c = i \/ c = i + 1 \/ c = i + 2 \/ c = i + 3 \/ c = i + 4 \/ c = i + 5)
      as [->|[->|[->|[->|[->| ->]]]]] by lia; auto.
    - right. right. left. exists (3 * (i / 6) + 3). lia.
    - right. right. left. exists (3 * (i / 6) + 4). lia.
    - right. right. right. exists (2 * (i / 6) + 3). lia.
    - right. right. left. exists (3 * (i / 6) + 5). lia. }
  destruct Hcases as [->|[->|[H2|H3]]]; auto.
  - apply (Hinv 2); [lia|]. now apply Z.divide_trans with c.
  - apply (Hinv 3); [lia|]. now apply Z.divide_trans with c.
Qed.

Lemma no_small_divisor_prime n i :
  1 < n -> n < i * i -> 0 < i ->
  (forall c, 1 < c < i -> ~ (c | n)) -> Z.prime n.
Proof.
  intros Hn Hsq Hi Hinv. split; [exact Hn|]. intros c Hc [m Hm].
  assert (Hmr : 1 < m < n) by nia.
  destruct (Z_lt_le_dec c i) as [Hlt|Hge].
  - apply (Hinv c); [lia|]. now exists m.
  - destruct (Z_lt_le_dec m i) as [Hlt'|Hge'].
    + apply (Hinv m); [lia|]. exists c. lia.
    + assert (i * i <= m * c) by (apply Z.mul_le_mono_nonneg; lia). lia.
Qed.

Lemma isPrime_loop_correct n :
  3 < n <= 2 ^ 62 ->
  forall fuel i,
    (1 <= fuel)%nat -> Z.sqrt n - i + 5 <= Z.of_nat fuel ->
    i mod 6 = 5 -> 5 <= i <= Z.sqrt n + 6 ->
    (forall c, 1 < c < i -> ~ (c | n)) ->
    exists b, isPrime_loop fuel n i = Ret b /\ (b = true <-> Z.prime n).
Proof.
  intros Hn. pose proof (sqrt_bound n ltac:(lia)) as Hs.
  pose proof (Z.sqrt_spec n ltac:(lia)) as Hsq. cbv zeta in Hsq.
  unfold Z.succ in Hsq.
  induction fuel as [|fuel IH]; intros i Hf Hfuel Hmod Hi Hinv; [lia|].
  cbn [isPrime_loop]. rewrite mul_small by lia.
  destruct (Z.leb_spec (i * i) n) as [Hle|Hgt].
  - assert (Hisq : i <= Z.sqrt n).
    { destruct (Z_le_gt_dec i (Z.sqrt n)) as [|Hbig]; [assumption|].
      assert ((Z.sqrt n + 1) * (Z.sqrt n + 1) <= i * i)
        by (apply Z.mul_le_mono_nonneg; lia).
      lia. }
    assert (Hin : i + 2 < n) by nia.
    rewrite rem_nonneg by lia. cbn [bind].
    destruct (Z.eqb_spec (n mod i) 0) as [Hz|Hnz].
    { exists false. split; [reflexivity|]. split; [discriminate|].
      intros Hp. exfalso. apply (proper_divisor_not_prime n i); auto; [lia|].
      apply Z.mod_divide; [lia|exact Hz]. }
    rewrite add_small, rem_nonneg by lia. cbn [bind].
    destruct (Z.eqb_spec (n mod (i + 2)) 0) as [Hz2|Hnz2].
    { exists false. split; [reflexivity|]. split; [discriminate|].
      intros Hp. exfalso. apply (proper_divisor_not_prime n (i + 2)); auto; [lia|].
      apply Z.mod_divide; [lia|exact Hz2]. }
    rewrite add_small by lia. apply IH.
    + lia.
    + lia.
    + rewrite <- Zplus_mod_idemp_l, Hmod. reflexivity.
    + lia.
    + apply stride_keeps_invariant; auto; try lia.
      * intros Hd. apply Hnz. apply Z.mod_divide; [lia|exact Hd].
      * intros Hd. apply Hnz2. apply Z.mod_divide; [lia|exact Hd].
  - exists true. split; [reflexivity|]. split; [|reflexivity].
    intros _. apply (no_small_divisor_prime n i); auto; lia.
Qed.

(** X1.  On every [n] up to [2 ^ 62], negative ones included, [isPrime]
    returns, and it returns [true] exactly on the primes. *)
Theorem isPrime_decides_primality n :
  n <= 2 ^ 62 ->
  exists b, isPrime n = Ret b /\ (b = true <-> Z.prime n).
Proof.
  intros Hn. unfold isPrime.
  destruct (Z.leb_spec n 1) as [H1|H1].
  { exists false. split; [reflexivity|]. split; [discriminate|].
    intros [Hp _]. lia. }
  destruct (Z.leb_spec n 3) as [H3|H3].
  { exists true. split; [reflexivity|]. split; [|reflexivity]. intros _.
    assert (n = 2 \/ n = 3) as [-> | ->] by lia;
      [apply Z.prime_2|apply Z.prime_3]. }
  rewrite rem_nonneg by lia. cbn [bind].
  destruct (Z.eqb_spec (n mod 2) 0) as [Hz|Hnz].
  { exists false. split; [reflexivity|]. split; [discriminate|].
    intros Hp. exfalso. apply (proper_divisor_not_prime n 2); auto; [lia|].
    apply Z.mod_divide; [lia|exact Hz]. }
  rewrite rem_nonneg by lia. cbn [bind].
  destruct (Z.eqb_spec (n mod 3) 0) as [Hz3|Hnz3].
  { exists false. split; [reflexivity|]. split; [discriminate|].
    intros Hp. exfalso. apply (proper_divisor_not_prime n 3); auto; [lia|].
    apply Z.mod_divide; [lia|exact Hz3]. }
  assert (Hs2 : 2 <= Z.sqrt n) by (apply Z.sqrt_le_square; lia).
  apply isPrime_loop_correct; try lia.
  - reflexivity.
  - intros c Hc Hd.
    assert (c = 2 \/ c = 3 \/ c = 4) as [->|[->| ->]] by lia.
    + apply Hnz. apply Z.mod_divide; [lia|exact Hd].
    + apply Hnz3. apply Z.mod_divide; [lia|exact Hd].
    + apply Hnz. apply Z.mod_divide; [lia|].
      apply Z.divide_trans with 4; [now exists 2|exact Hd].
Qed.

Lemma isPrime_decides_primality_witness :
  exists b, isPrime 1000003 = Ret b /\ (b = true <-> Z.prime 1000003).
Proof. apply (isPrime_decides_primality 1000003). lia. Defined.

(** ** Key generation *)

Lemma isPrime_drawn num :
  drawn num -> isPrime num = Ret (trial_division num).
Proof. unfold drawn. intros H. apply isPrime_trial_division. lia. Qed.

(** X2.  On draws of [100 .. 1000], [generatePrime] returns [num] exactly
    when [num] is the first prime among the draws; the value returned is
    then a prime of [100 .. 1000], and without a prime among the draws the
    loop does not stop. *)
Theorem generatePrime_first_prime draws :
  Forall drawn draws ->
  (forall num,
     generatePrime draws = Ret num <->
     exists before after,
       draws = (before ++ num :: after)%list /\ Z.prime num /\
       Forall (fun x => ~ Z.prime x) before) /\
  (forall num, generatePrime draws = Ret num -> generated num) /\
  (Forall (fun x => ~ Z.prime x) draws ->
   generatePrime draws = Fail FuelExhausted).
Proof.
  induction 1 as [|x draws Hx Hdraws IH].
  - split; [|split].
    + intros num. split; [discriminate|].
      intros (before & after & H & _). destruct before; discriminate.
    + discriminate.
    + reflexivity.
  - destruct IH as (IH1 & IH2 & IH3).
    cbn [generatePrime]. rewrite (isPrime_drawn x Hx). cbn [bind].
    pose proof (trial_division_prime x) as Hpx.
    destruct (trial_division x) eqn:E.
    + assert (Hprime : Z.prime x) by (now apply Hpx).
      split; [|split].
      * intros num. split.
        -- intros H. apply Ret_inj in H. subst num.
           exists [], draws. split; [reflexivity|].
           split; [exact Hprime|constructor].
        -- intros (before & after & Heq & Hp & Hnot).
           destruct before as [|y before].
           ++ simpl in Heq. now injection Heq as -> _.
           ++ simpl in Heq. injection Heq as -> _.
              inversion Hnot; subst. contradiction.
      * intros num H. apply Ret_inj in H. subst num.
        split; [exact Hx|]. rewrite (isPrime_drawn x Hx). now rewrite E.
      * intros Hnone. inversion Hnone; subst. contradiction.
    + assert (Hnot : ~ Z.prime x).
      { intros Hp. apply Hpx in Hp. congruence. }
      split; [|split].
      * intros num. rewrite IH1. split.
        -- intros (before & after & Heq & Hp & Hb).
           exists (x :: before), after. split; [now rewrite Heq|].
           split; [exact Hp|now constructor].
        -- intros (before & after & Heq & Hp & Hb).
           destruct before as [|y before].
           ++ simpl in Heq. injection Heq as -> _. contradiction.
           ++ simpl in Heq. injection Heq as -> ->.
              exists before, after. split; [reflexivity|].
              split; [exact Hp|now inversion Hb].
      * exact IH2.
      * intros Hnone. apply IH3. now inversion Hnone.
Qed.

Lemma generatePrime_first_prime_witness :
  (forall num,
     generatePrime [100; 102; 103; 107] = Ret num <->
     exists before after,
       [100; 102; 103; 107] = (before ++ num :: after)%list /\ Z.prime num /\
       Forall (fun x => ~ Z.prime x) before) /\
  (forall num, generatePrime [100; 102; 103; 107] = Ret num -> generated num) /\
  (Forall (fun x => ~ Z.prime x) [100; 102; 103; 107] ->
   generatePrime [100; 102; 103; 107] = Fail FuelExhausted).
Proof.
  apply (generatePrime_first_prime [100; 102; 103; 107]).
  repeat constructor; unfold drawn; lia.
Defined.

(** The fields of a key that the constructor built. *)
Lemma RSA_new_key p q k :
  drawn p -> drawn q -> RSA_new p q = Ret k ->
  k = mkRSA p q (p * q) ((p - 1) * (q - 1)) 65537 (d k) /\
  0 < d k < (p - 1) * (q - 1) /\
  (65537 * d k) mod ((p - 1) * (q - 1)) = 1.
Proof.
  unfold drawn. intros Hp Hq Hk.
  destruct (modInverse_correct 65537 ((p - 1) * (q - 1))) as (d0 & Hd & Hr & Hinv);
    [lia | unfold LL.max_ll, LL.half; nia | now apply coprime_e_drawn |].
  unfold RSA_new, LL.mul, LL.sub in Hk.
  rewrite (wrap_in_range (p - 1)), (wrap_in_range (q - 1)),
    (wrap_in_range (p * q)), (wrap_in_range ((p - 1) * (q - 1))) in Hk;
    try (unfold LL.in_range, LL.min_ll, LL.max_ll, LL.half; nia).
  rewrite Hd in Hk. cbn [bind] in Hk. apply Ret_inj in Hk. subst k. cbn [d].
  split; [reflexivity|]. split; [|exact Hinv].
  destruct (Z.eq_dec d0 0) as [->|]; [|lia].
  rewrite Z.mul_0_r, Z.mod_0_l in Hinv by nia. discriminate.
Qed.

(** X3.  For every pair of draws of [100 .. 1000], whether prime, equal or
    not, the constructor returns a key: [e = 65537] is coprime with [phi],
    so [modInverse] never divides by zero, and the key has [n = p * q],
    [phi = (p - 1) * (q - 1)] and a private exponent [0 < d < phi] with
    [e * d = 1] modulo [phi]; both key pairs carry the same modulus. *)
Theorem RSA_new_always_builds_a_key p q :
  drawn p -> drawn q ->
  exists k, RSA_new p q = Ret k /\
            n k = p * q /\ phi k = (p - 1) * (q - 1) /\ e k = 65537 /\
            Z.gcd (e k) (phi k) = 1 /\
            0 < d k < phi k /\ (e k * d k) mod phi k = 1 /\
            getPublicKey k = (65537, p * q) /\
            getPrivateKey k = (d k, p * q).
Proof.
  intros Hp Hq. destruct (RSA_new_returns p q Hp Hq) as [k Hk].
  destruct (RSA_new_key p q k Hp Hq Hk) as (Hfields & Hd & Hinv).
  exists k. split; [exact Hk|]. rewrite Hfields.
  unfold getPublicKey, getPrivateKey. cbn [n phi e d].
  repeat split; try assumption; try lia.
  now apply coprime_e_drawn.
Qed.

Lemma RSA_new_always_builds_a_key_witness :
  exists k, RSA_new 100 1000 = Ret k /\
            n k = 100 * 1000 /\ phi k = (100 - 1) * (1000 - 1) /\ e k = 65537 /\
            Z.gcd (e k) (phi k) = 1 /\
            0 < d k < phi k /\ (e k * d k) mod phi k = 1 /\
            getPublicKey k = (65537, 100 * 1000) /\
            getPrivateKey k = (d k, 100 * 1000).
Proof.
  apply (RSA_new_always_builds_a_key 100 1000); unfold drawn; lia.
Defined.

Lemma generatePrime_returns draws :
  Forall drawn draws -> Exists Z.prime draws ->
  exists num, generatePrime draws = Ret num /\ generated num /\ In num draws.
Proof.
  induction 1 as [|x draws Hx Hdraws IH]; intros Hex; [inversion Hex|].
  cbn [generatePrime]. rewrite (isPrime_drawn x Hx). cbn [bind].
  destruct (trial_division x) eqn:E.
  - exists x. split; [reflexivity|]. split; [|now left].
    split; [exact Hx|]. rewrite (isPrime_drawn x Hx). now rewrite E.
  - destruct IH as (num & Hnum & Hgen & Hin).
    + inversion Hex as [? ? Hp|]; subst; [|assumption].
      apply trial_division_prime in Hp. congruence.
    + exists num. split; [exact Hnum|]. split; [exact Hgen|now right].
Qed.

(** X4.  The constructor as a whole: when both runs of [generatePrime] see
    draws of [100 .. 1000] with a prime among them, a key is built; its [p]
    and [q] are primes taken from the draws (nothing makes them differ),
    [n = p * q], [e = 65537] and [d] is the inverse of [e] modulo
    [phi = (p - 1) * (q - 1)]. *)
Theorem RSA_construct_builds_a_key draws_p draws_q :
  Forall drawn draws_p -> Forall drawn draws_q ->
  Exists Z.prime draws_p -> Exists Z.prime draws_q ->
  exists k, RSA_construct draws_p draws_q = Ret k /\
            In (p k) draws_p /\ In (q k) draws_q /\
            Z.prime (p k) /\ Z.prime (q k) /\
            n k = p k * q k /\ phi k = (p k - 1) * (q k - 1) /\ e k = 65537 /\
            0 < d k < phi k /\ (e k * d k) mod phi k = 1.
Proof.
  intros Hdp Hdq Hep Heq.
  destruct (generatePrime_returns draws_p Hdp Hep) as (p1 & Hp1 & Hgp & Hinp).
  destruct (generatePrime_returns draws_q Hdq Heq) as (q1 & Hq1 & Hgq & Hinq).
  pose proof (generated_prime p1 Hgp) as Hpp.
  pose proof (generated_prime q1 Hgq) as Hpq.
  destruct Hgp as [Hrp _], Hgq as [Hrq _].
  destruct (RSA_new_returns p1 q1 Hrp Hrq) as [k Hk].
  destruct (RSA_new_key p1 q1 k Hrp Hrq Hk) as (Hfields & Hd & Hinv).
  exists k. unfold RSA_construct. rewrite Hp1, Hq1. cbn [bind].
  split; [exact Hk|]. rewrite Hfields. cbn [p q n phi e d].
  split; [exact Hinp|]. split; [exact Hinq|].
  split; [exact Hpp|]. split; [exact Hpq|].
  repeat split; try assumption; lia.
Qed.

Lemma RSA_construct_builds_a_key_witness :
  exists k, RSA_construct [100; 101] [999; 1000; 101] = Ret k /\
            In (p k) [100; 101] /\ In (q k) [999; 1000; 101] /\
            Z.prime (p k) /\ Z.prime (q k) /\
            n k = p k * q k /\ phi k = (p k - 1) * (q k - 1) /\ e k = 65537 /\
            0 < d k < phi k /\ (e k * d k) mod phi k = 1.
Proof.
  apply (RSA_construct_builds_a_key [100; 101] [999; 1000; 101]).
  - repeat constructor; unfold drawn; lia.
  - repeat constructor; unfold drawn; lia.
  - apply Exists_cons_tl, Exists_cons_hd, prime_101.
  - apply Exists_cons_tl, Exists_cons_tl, Exists_cons_hd, prime_101.
Defined.

(** ** The cipher on numbers, for a key built from distinct primes *)

Section ValidKey.

Variables (p1 q1 : Z) (k : RSA).
Hypothesis prime_p1 : Z.prime p1.
Hypothesis prime_q1 : Z.prime q1.
Hypothesis distinct1 : p1 <> q1.
Hypothesis drawn_p1 : drawn p1.
Hypothesis drawn_q1 : drawn q1.
Hypothesis built : RSA_new p1 q1 = Ret k.

Lemma valid_key_facts :
  n k = p1 * q1 /\ e k = 65537 /\ 10000 <= n k <= 1000000 /\
  0 < d k < n k /\ (65537 * d k) mod ((p1 - 1) * (q1 - 1)) = 1 /\
  (p1 * q1 - 1) * (p1 * q1 - 1) <= LL.max_ll.
Proof.
  destruct (RSA_new_shape p1 q1 k drawn_p1 drawn_q1 built) as (Hn & He & Hr).
  destruct (RSA_new_key p1 q1 k drawn_p1 drawn_q1 built) as (_ & Hd & Hinv).
  destruct (drawn_small k Hr) as [_ Hsq]. rewrite Hn in Hsq.
  unfold drawn in *. repeat split; try assumption; try lia; nia.
Qed.

Lemma exponent_cycle x :
  Z.rem (x ^ (65537 * d k)) (n k) = Z.rem x (n k).
Proof.
  destruct valid_key_facts as (Hn & He & Hr & Hd & Hinv & Hsq).
  assert (Hnonneg : forall a, 0 <= a ->
            Z.rem (a ^ (65537 * d k)) (n k) = Z.rem a (n k)).
  { intros a Ha.
    assert (Hpow : 0 <= a ^ (65537 * d k)) by (apply Z.pow_nonneg; exact Ha).
    rewrite (Z.rem_mod_nonneg (a ^ _)) by (exact Hpow || lia).
    rewrite (Z.rem_mod_nonneg a) by lia. clear Hpow.
    rewrite Z.pow_mul_r, Hn by lia.
    apply (power_cycle p1 q1); auto. lia. }
  destruct (Z_lt_le_dec x 0) as [Hneg|Hpos]; [|now apply Hnonneg].
  assert (Hx : x = - (- x)) by lia. remember (- x) as a eqn:Ea.
  rewrite Hx.
  rewrite Z.pow_opp_odd.
  - rewrite !Z.rem_opp_l by lia. rewrite Hnonneg by lia. reflexivity.
  - apply Z.odd_spec. rewrite Z.odd_mul.
    rewrite (private_exponent_odd p1 q1 prime_p1 prime_q1 distinct1 Hsq (d k) Hinv).
    reflexivity.
Qed.

Lemma decrypt_value c :
  decrypt k c = Ret (Z.rem (c ^ d k) (n k)).
Proof.
  destruct valid_key_facts as (Hn & He & Hr & Hd & Hinv & Hsq).
  unfold decrypt. apply modPow_spec; unfold LL.max_ll, LL.half in *; lia.
Qed.

Lemma encrypt_value_valid m :
  encrypt k m = Ret (Z.rem (m ^ 65537) (n k)).
Proof.
  destruct valid_key_facts as (Hn & He & Hr & Hd & Hinv & Hsq).
  apply encrypt_value; [exact He|lia|]. rewrite Hn. exact Hsq.
Qed.

(** X5.  For a key built from two distinct primes, decryption undoes
    encryption up to the modulus on every number: a message [m] of any
    size or sign comes back as [m % n]. *)
Theorem decrypt_encrypt_any_number m :
  (c <- encrypt k m ;; decrypt k c) = Ret (Z.rem m (n k)).
Proof.
  destruct valid_key_facts as (Hn & He & Hr & Hd & Hinv & Hsq).
  rewrite encrypt_value_valid. cbn [bind]. rewrite decrypt_value. f_equal.
  rewrite rem_pow_idemp, <- Z.pow_mul_r by lia.
  apply exponent_cycle.
Qed.

(** X6.  In the other order as well: encrypting the decryption of [c]
    gives [c % n], so both maps are inverse bijections on the residues. *)
Theorem encrypt_decrypt_any_number c :
  (m <- decrypt k c ;; encrypt k m) = Ret (Z.rem c (n k)).
Proof.
  destruct valid_key_facts as (Hn & He & Hr & Hd & Hinv & Hsq).
  rewrite decrypt_value. cbn [bind]. rewrite encrypt_value_valid. f_equal.
  rewrite rem_pow_idemp, <- Z.pow_mul_r by lia.
  rewrite (Z.mul_comm (d k)). apply exponent_cycle.
Qed.

End ValidKey.

Lemma drawn_101 : drawn 101.
Proof. unfold drawn. lia. Qed.

Lemma drawn_103 : drawn 103.
Proof. unfold drawn. lia. Qed.

Lemma built_101_103 :
  RSA_new 101 103 = Ret (mkRSA 101 103 10403 10200 65537 10073).
Proof. vm_compute. reflexivity. Qed.

Lemma decrypt_encrypt_any_number_witness :
  (c <- encrypt (mkRSA 101 103 10403 10200 65537 10073) (-20000) ;;
   decrypt (mkRSA 101 103 10403 10200 65537 10073) c) =
  Ret (Z.rem (-20000) (n (mkRSA 101 103 10403 10200 65537 10073))).
Proof.
  apply (decrypt_encrypt_any_number 101 103 _ prime_101 prime_103);
    [lia | exact drawn_101 | exact drawn_103 | exact built_101_103].
Defined.

Lemma encrypt_decrypt_any_number_witness :
  (m <- decrypt (mkRSA 101 103 10403 10200 65537 10073) 123456 ;;
   encrypt (mkRSA 101 103 10403 10200 65537 10073) m) =
  Ret (Z.rem 123456 (n (mkRSA 101 103 10403 10200 65537 10073))).
Proof.
  apply (encrypt_decrypt_any_number 101 103 _ prime_101 prime_103);
    [lia | exact drawn_101 | exact drawn_103 | exact built_101_103].
Defined.

(** ** The cipher on numbers, for every key the constructor can build *)

(** X7.  Encryption is multiplicative: the ciphertext of a product is the
    product of the ciphertexts, reduced by [%]. *)
Theorem encrypt_multiplicative p q k a b :
  drawn p -> drawn q -> RSA_new p q = Ret k -> LL.in_range (a * b) ->
  exists ca cb,
    encrypt k a = Ret ca /\ encrypt k b = Ret cb /\
    encrypt k (LL.mul a b) = Ret (Z.rem (ca * cb) (n k)).
Proof.
  intros Hp Hq Hk Hab.
  destruct (RSA_new_shape p q k Hp Hq Hk) as (Hn & He & Hr).
  destruct (drawn_small k Hr) as [Hpos Hsq].
  unfold LL.mul. rewrite (wrap_in_range _ Hab).
  rewrite !encrypt_value by assumption.
  do 2 eexists. split; [reflexivity|]. split; [reflexivity|].
  f_equal. rewrite Z.pow_mul_l. apply Z.mul_rem. lia.
Qed.

Lemma encrypt_multiplicative_witness :
  exists ca cb,
    encrypt (mkRSA 101 103 10403 10200 65537 10073) 12 = Ret ca /\
    encrypt (mkRSA 101 103 10403 10200 65537 10073) 34 = Ret cb /\
    encrypt (mkRSA 101 103 10403 10200 65537 10073) (LL.mul 12 34) =
    Ret (Z.rem (ca * cb) (n (mkRSA 101 103 10403 10200 65537 10073))).
Proof.
  apply (encrypt_multiplicative 101 103 _ 12 34 drawn_101 drawn_103 built_101_103).
  unfold LL.in_range, LL.min_ll, LL.max_ll, LL.half. lia.
Defined.

(** X8.  When both draws give the same number [p], a key is still built,
    but it does not decrypt: the message [p] itself, which is below
    [n = p * p], encrypts to [0] and comes back as [0]. *)
Theorem equal_draws_lose_messages p :
  drawn p ->
  exists k, RSA_new p p = Ret k /\ 0 < p < n k /\
            encrypt k p = Ret 0 /\ decrypt k 0 = Ret 0 /\
            (c <- encrypt k p ;; decrypt k c) <> Ret p.
Proof.
  intros Hp. destruct (RSA_new_returns p p Hp Hp) as [k Hk].
  destruct (RSA_new_shape p p k Hp Hp Hk) as (Hn & He & Hr).
  destruct (RSA_new_key p p k Hp Hp Hk) as (_ & Hd & _).
  destruct (drawn_small k Hr) as [Hpos Hsq].
  unfold drawn in Hp.
  assert (Henc : encrypt k p = Ret 0).
  { rewrite encrypt_value by assumption. f_equal. rewrite Hn.
    replace 65537 with (2 + 65535) by reflexivity.
    rewrite Z.pow_add_r, Z.pow_2_r, Z.mul_comm by lia.
    apply Z.rem_mul. nia. }
  assert (Hdec : decrypt k 0 = Ret 0).
  { unfold decrypt. rewrite modPow_spec;
      try (unfold LL.max_ll, LL.half; nia); try assumption.
    f_equal. rewrite Z.pow_0_l by lia. apply Z.rem_0_l. lia. }
  exists k. split; [exact Hk|]. split; [nia|].
  split; [exact Henc|]. split; [exact Hdec|].
  rewrite Henc. cbn [bind]. rewrite Hdec. intros H. apply Ret_inj in H. lia.
Qed.

Lemma equal_draws_lose_messages_witness :
  exists k, RSA_new 997 997 = Ret k /\ 0 < 997 < n k /\
            encrypt k 997 = Ret 0 /\ decrypt k 0 = Ret 0 /\
            (c <- encrypt k 997 ;; decrypt k c) <> Ret 997.
Proof. apply (equal_draws_lose_messages 997). unfold drawn. lia. Defined.

(** ** The cipher on strings, for every key the constructor can build *)

Lemma decrypt_returns p q k num :
  drawn p -> drawn q -> RSA_new p q = Ret k -> returns (decrypt k num).
Proof.
  intros Hp Hq Hk.
  destruct (RSA_new_shape p q k Hp Hq Hk) as (Hn & He & Hr).
  destruct (RSA_new_key p q k Hp Hq Hk) as (_ & Hd & _).
  unfold decrypt. apply modPow_returns; [lia|].
  unfold drawn in *. unfold LL.max_ll, LL.half. nia.
Qed.

Lemma stoll_failures token f :
  stoll token = Fail f -> f = InvalidArgument \/ f = OutOfRange.
Proof.
  unfold stoll.
  destruct (match skip_ws token with
            | String c rest =>
                if code c =? 45 then (true, rest)
                else if code c =? 43 then (false, rest)
                else (false, skip_ws token)
            | EmptyString => (false, skip_ws token)
            end) as [negative body].
  destruct (starts_with_digit body); [|intros H; left; congruence].
  destruct (_ && _); [discriminate|]. intros H. right. congruence.
Qed.

(** What the loop of [decryptString] does on a token sequence, when
    [decrypt] itself cannot fail. *)
Lemma fold_decryptString_body k ts :
  (forall num, returns (decrypt k num)) ->
  forall result,
    match fold_tokens (decryptString_body k) ts result with
    | Ret out =>
        Forall (fun t => returns (stoll t)) ts /\
        String.length out = (String.length result + List.length ts)%nat
    | Fail f =>
        (f = InvalidArgument \/ f = OutOfRange) /\
        ~ Forall (fun t => returns (stoll t)) ts
    end.
Proof.
  intros Hdec. induction ts as [|t ts IH]; intros result.
  - simpl. split; [constructor|lia].
  - cbn [fold_tokens]. unfold decryptString_body at 1.
    destruct (stoll t) as [num|f] eqn:Et; cbn [bind].
    + destruct (Hdec num) as [v ->]. cbn [bind].
      specialize (IH (result ++ String (ll_to_char v) "")).
      destruct (fold_tokens _ ts _) as [out|f].
      * destruct IH as [Hall Hlen]. split.
        -- constructor; [now exists num|exact Hall].
        -- rewrite Hlen, length_append. simpl. lia.
      * destruct IH as [Hf Hnot]. split; [exact Hf|].
        intros Hall. apply Hnot. now inversion Hall.
    + split; [exact (stoll_failures t f Et)|].
      intros Hall. inversion Hall as [|? ? [v Hv] _]; subst. congruence.
Qed.

(** X9.  For a key the constructor built and an input made of the white
    space [lead] and the tokens of [pieces], each with the white space
    after it, [decryptString] returns exactly when [std::stoll] accepts
    every one of these tokens; it then gives one character per token.
    Otherwise the exception of [std::stoll] escapes
    ([std::invalid_argument] or [std::out_of_range]) and nothing is
    returned, whatever tokens came before. *)
Theorem decryptString_returns_iff_tokens_parse p q k lead pieces :
  drawn p -> drawn q -> RSA_new p q = Ret k ->
  blank lead -> well_spaced pieces ->
  (returns (decryptString k (lead ++ join pieces)) <->
   Forall (fun t => returns (stoll t)) (map fst pieces)) /\
  (forall out, decryptString k (lead ++ join pieces) = Ret out ->
     String.length out = List.length pieces) /\
  (forall f, decryptString k (lead ++ join pieces) = Fail f ->
     f = InvalidArgument \/ f = OutOfRange).
Proof.
  intros Hp Hq Hk Hlead Hwf.
  rewrite decryptString_tokens, (tokens_join pieces lead Hlead Hwf).
  pose proof (fold_decryptString_body k (map fst pieces)
                (fun num => decrypt_returns p q k num Hp Hq Hk) "") as H.
  destruct (fold_tokens _ _ _) as [out|f].
  - destruct H as [Hall Hlen]. split; [|split].
    + split; [intros _; exact Hall|intros _; now exists out].
    + intros out' Hout. apply Ret_inj in Hout. subst out'.
      rewrite Hlen, length_map. reflexivity.
    + discriminate.
  - destruct H as [Hf Hnot]. split; [|split].
    + split; [intros [out Hout]; discriminate|intros Hall; contradiction].
    + discriminate.
    + intros f' Hf'. assert (f' = f) by congruence. subst f'. exact Hf.
Qed.

Lemma decryptString_returns_iff_tokens_parse_witness :
  (returns (decryptString (mkRSA 101 103 10403 10200 65537 10073)
              (" " ++ join [("7347", "  "); ("x1", "")])) <->
   Forall (fun t => returns (stoll t))
          (map fst [("7347", "  "); ("x1", "")])) /\
  (forall out,
     decryptString (mkRSA 101 103 10403 10200 65537 10073)
       (" " ++ join [("7347", "  "); ("x1", "")]) = Ret out ->
     String.length out = List.length [("7347", "  "); ("x1", "")]) /\
  (forall f,
     decryptString (mkRSA 101 103 10403 10200 65537 10073)
       (" " ++ join [("7347", "  "); ("x1", "")]) = Fail f ->
     f = InvalidArgument \/ f = OutOfRange).
Proof.
  apply (decryptString_returns_iff_tokens_parse 101 103 _
           " " [("7347", "  "); ("x1", "")]
           drawn_101 drawn_103 built_101_103).
  - reflexivity.
  - simpl. unfold is_token, blank.
    repeat split; (discriminate || reflexivity).
Defined.

(** X10.  For every key the constructor can build, also one from equal
    draws, [decryptString] accepts whatever [encryptString] wrote: no
    exception escapes and the result has as many characters as the
    message, although they may differ from it. *)
Theorem decryptString_accepts_encryptString cs p q k s :
  drawn p -> drawn q -> RSA_new p q = Ret k ->
  exists c out,
    encryptString cs k s = Ret c /\ decryptString k c = Ret out /\
    String.length out = String.length s.
Proof.
  intros Hp Hq Hk.
  destruct (RSA_new_shape p q k Hp Hq Hk) as (Hn & He & Hr).
  destruct (drawn_small k Hr) as [Hpos Hsq].
  unfold encryptString. rewrite encryptString_loop_words by assumption.
  cbn [append]. eexists. 
  set (word := fun c => to_string (Z.rem (char_to_ll cs c ^ 65537) (n k))).
  assert (Htok : Forall is_token (map word (list_ascii_of_string s))).
  { apply Forall_forall. intros t Ht. apply in_map_iff in Ht as (c & <- & _).
    apply to_string_token. }
  assert (Hparse : Forall (fun t => returns (stoll t))
                     (map word (list_ascii_of_string s))).
  { apply Forall_forall. intros t Ht. apply in_map_iff in Ht as (c & <- & _).
    unfold word.
    pose proof (Z.rem_bound_abs (char_to_ll cs c ^ 65537) (n k) ltac:(lia)) as Hb.
    revert Hb. generalize (Z.rem (char_to_ll cs c ^ 65537) (n k)). intros z Hb.
    exists z. apply stoll_to_string.
    unfold LL.in_range, LL.min_ll, LL.max_ll, LL.half. lia. }
  pose proof (fold_decryptString_body k (map word (list_ascii_of_string s))
                (fun num => decrypt_returns p q k num Hp Hq Hk) "") as H.
  rewrite decryptString_tokens, tokens_space_terminated by exact Htok.
  destruct (fold_tokens _ _ _) as [out|f].
  - exists out. split; [reflexivity|]. split; [reflexivity|].
    destruct H as [_ Hlen]. rewrite Hlen, length_map, length_list_ascii.
    reflexivity.
  - destruct H as [_ Hnot]. contradiction.
Qed.

Lemma decryptString_accepts_encryptString_witness :
  exists c out,
    encryptString true (mkRSA 101 101 10201 10000 65537 3473) "eye" = Ret c /\
    decryptString (mkRSA 101 101 10201 10000 65537 3473) c = Ret out /\
    String.length out = String.length "eye".
Proof.
  apply (decryptString_accepts_encryptString true 101 101 _ "eye"
           drawn_101 drawn_101).
  vm_compute. reflexivity.
Defined.

(** X11.  For every key the constructor can build and every input made
    of the white space [lead] and the tokens of [pieces], whatever their
    characters, [decryptHuffmanCodes] returns when no token is longer than
    [INT_MAX] characters: its output has one word of binary digits per
    token, of the width of that token and followed by a single space, so
    the widths that a Huffman decoder relies on survive even when the
    values do not. *)
Theorem decryptHuffmanCodes_keeps_widths cs p q k lead pieces :
  drawn p -> drawn q -> RSA_new p q = Ret k ->
  blank lead -> well_spaced pieces ->
  Forall (fun token => Z.of_nat (String.length token) <= Int.max_int)
         (map fst pieces) ->
  exists outs,
    decryptHuffmanCodes cs k (lead ++ join pieces) =
    Ret (space_terminated outs) /\
    widths outs = widths (map fst pieces) /\
    Forall binary outs.
Proof.
  intros Hp Hq Hk Hlead Hwf Hshort.
  set (word := fun t =>
         longToBinary (value_or 0 (decrypt k (binaryToLong cs t)))
                      (Z.of_nat (String.length t))).
  exists (map word (map fst pieces)).
  split; [|split].
  - rewrite decryptHuffmanCodes_tokens, (tokens_join pieces lead Hlead Hwf).
    rewrite (fold_tokens_words _ word).
    + reflexivity.
    + intros t Ht. unfold decryptHuffmanCodes_body, word.
      rewrite Forall_forall in Hshort.
      rewrite of_size_small by (split; [lia|now apply Hshort]).
      destruct (decrypt_returns p q k (binaryToLong cs t) Hp Hq Hk) as [v ->].
      reflexivity.
  - unfold widths. rewrite map_map. apply map_ext.
    intros t. apply longToBinary_width.
  - apply Forall_forall. intros w Hw. apply in_map_iff in Hw as (t & <- & _).
    apply longToBinary_binary.
Qed.

Lemma decryptHuffmanCodes_keeps_widths_witness :
  exists outs,
    decryptHuffmanCodes true (mkRSA 101 103 10403 10200 65537 10073)
      (" " ++ join [("0110", "  "); ("x9", " "); ("1", " ")]) =
    Ret (space_terminated outs) /\
    widths outs = widths (map fst [("0110", "  "); ("x9", " "); ("1", " ")]) /\
    Forall binary outs.
Proof.
  apply (decryptHuffmanCodes_keeps_widths true 101 103 _
           " " [("0110", "  "); ("x9", " "); ("1", " ")]
           drawn_101 drawn_103 built_101_103).
  - reflexivity.
  - simpl. unfold is_token, blank.
    repeat split; (discriminate || reflexivity).
  - repeat constructor; unfold Int.max_int, Int.half; simpl; lia.
Defined.

(** ** [binaryToLong] beyond 63 digits *)

Lemma wrap_congruent x y : (2 ^ 64 | x - y) -> LL.wrap x = LL.wrap y.
Proof.
  intros Hd. rewrite !wrap_mod. f_equal.
  apply Z.cong_iff_0. apply Z.mod_divide; [lia|].
  replace (x + LL.half - (y + LL.half)) with (x - y) by ring. exact Hd.
Qed.

Lemma wrap_residue z : (2 ^ 64 | LL.wrap z - z).
Proof.
  rewrite wrap_mod.
  pose proof (Z.div_mod (z + LL.half) (2 ^ 64) ltac:(lia)) as H.
  exists (- ((z + LL.half) / 2 ^ 64)). lia.
Qed.

Lemma wrap_even z : exists h, LL.wrap (2 * z) = 2 * h.
Proof.
  destruct (wrap_residue (2 * z)) as [c Hc].
  exists (z + c * 2 ^ 63).
  replace (2 ^ 64) with (2 * 2 ^ 63) in Hc by reflexivity. lia.
Qed.

Lemma binaryToLong_loop_wraps cs s : forall acc,
  binary s -> LL.in_range acc ->
  binaryToLong_loop cs s acc =
  LL.wrap (acc * 2 ^ Z.of_nat (String.length s) + big_endian_value s).
Proof.
  unfold binary. induction s as [|c s IH]; intros acc Hbin Hacc.
  - simpl. rewrite wrap_in_range; [lia|].
    replace (acc * 1 + 0) with acc by lia. exact Hacc.
  - cbn [all_chars] in Hbin. apply andb_true_iff in Hbin as [Hc Hs].
    cbn [binaryToLong_loop big_endian_value String.length].
    rewrite (is_bit_value cs c Hc).
    set (b := if code c =? 49 then 1 else 0).
    assert (Hbit : 0 <= b <= 1) by (unfold b; destruct (code c =? 49); lia).
    unfold LL.shl. rewrite Z.shiftl_mul_pow2, Z.pow_1_r, (Z.mul_comm acc 2) by lia.
    destruct (wrap_even acc) as [h Hh].
    pose proof (wrap_range (2 * acc)) as Hrange.
    pose proof (wrap_residue (2 * acc)) as Hres.
    rewrite Hh in *. rewrite lor_low_bit by exact Hbit.
    rewrite IH; [|exact Hs|].
    + apply wrap_congruent.
      rewrite Nat2Z.inj_succ, Z.pow_succ_r by lia.
      replace ((2 * h + b) * 2 ^ Z.of_nat (String.length s) + big_endian_value s -
               (acc * (2 * 2 ^ Z.of_nat (String.length s)) +
                (b * 2 ^ Z.of_nat (String.length s) + big_endian_value s)))
        with ((2 * h - 2 * acc) * 2 ^ Z.of_nat (String.length s)) by ring.
      now apply Z.divide_mul_l.
    + unfold LL.in_range, LL.min_ll, LL.max_ll, LL.half in *. lia.
Qed.

Lemma big_endian_value_app s1 s2 :
  big_endian_value (s1 ++ s2) =
  big_endian_value s1 * 2 ^ Z.of_nat (String.length s2) + big_endian_value s2.
Proof.
  induction s1 as [|c s1 IH]; [simpl; lia|].
  cbn [append big_endian_value]. rewrite IH, length_append, Nat2Z.inj_add.
  rewrite Z.pow_add_r by lia. ring.
Qed.

Lemma binary_app s1 s2 : binary s1 -> binary s2 -> binary (s1 ++ s2).
Proof.
  unfold binary. induction s1 as [|c s1 IH]; intros H1 H2; [exact H2|].
  cbn [append all_chars] in *. apply andb_true_iff in H1 as [Hc H1].
  now rewrite Hc, IH.
Qed.

(** X12.  On a string of binary digits of any length [binaryToLong] returns
    the value of the digits reduced to 64 bits in two's complement: nothing
    signals the overflow, and digits before the last 64 are ignored. *)
Theorem binaryToLong_wraps cs :
  (forall s, binary s -> binaryToLong cs s = LL.wrap (big_endian_value s)) /\
  (forall front s, binary front -> binary s -> String.length s = 64%nat ->
     binaryToLong cs (front ++ s) = binaryToLong cs s).
Proof.
  assert (H : forall s, binary s ->
            binaryToLong cs s = LL.wrap (big_endian_value s)).
  { intros s Hs. unfold binaryToLong. rewrite binaryToLong_loop_wraps.
    - f_equal.
    - exact Hs.
    - unfold LL.in_range, LL.min_ll, LL.max_ll, LL.half. lia. }
  split; [exact H|].
  intros front s Hf Hs Hlen.
  rewrite !H by (auto using binary_app).
  apply wrap_congruent. rewrite big_endian_value_app, Hlen.
  change (Z.of_nat 64) with 64.
  replace (big_endian_value front * 2 ^ 64 + big_endian_value s -
           big_endian_value s) with (big_endian_value front * 2 ^ 64) by ring.
  apply Z.divide_factor_r.
Qed.

Lemma binaryToLong_wraps_witness :
  binaryToLong true
    "11111111111111111111111111111111111111111111111111111111111111111" =
  LL.wrap (big_endian_value
    "11111111111111111111111111111111111111111111111111111111111111111") /\
  binaryToLong true
    ("101" ++ "0000000000000000000000000000000000000000000000000000000000000110") =
  binaryToLong true
    "0000000000000000000000000000000000000000000000000000000000000110".
Proof.
  split.
  - apply (proj1 (binaryToLong_wraps true)). reflexivity.
  - apply (proj2 (binaryToLong_wraps true)); reflexivity.
Defined.

(** ** Codes that the cipher does not hide *)

Lemma small_power v x : 0 <= v <= 1 -> 0 < x -> v ^ x = v.
Proof.
  intros Hv Hx. assert (v = 0 \/ v = 1) as [-> | ->] by lia.
  - apply Z.pow_0_l. exact Hx.
  - apply Z.pow_1_l. lia.
Qed.

(** X13.  For every key the constructor can build, a Huffman code whose
    value is [0] or [1] (all zeros, or zeros then a one) is its own
    ciphertext: an input made of the white space [lead] and such codes,
    each with the white space after it, goes through
    [encryptHuffmanCodes] and through [decryptHuffmanCodes] unchanged, up
    to its spacing. *)
Theorem codes_of_value_0_or_1_stay_in_clear cs p q k lead pieces :
  drawn p -> drawn q -> RSA_new p q = Ret k ->
  blank lead -> well_spaced pieces ->
  Forall (fun t => binary t /\ (String.length t <= 64)%nat /\
                   big_endian_value t <= 1) (map fst pieces) ->
  encryptHuffmanCodes cs k (lead ++ join pieces) =
  Ret (space_terminated (map fst pieces)) /\
  decryptHuffmanCodes cs k (lead ++ join pieces) =
  Ret (space_terminated (map fst pieces)).
Proof.
  intros Hp Hq Hk Hlead Hwf Hsmall.
  destruct (RSA_new_shape p q k Hp Hq Hk) as (Hn & He & Hr).
  destruct (RSA_new_key p q k Hp Hq Hk) as (_ & Hd & _).
  destruct (drawn_small k Hr) as [Hpos Hsq].
  rewrite Forall_forall in Hsmall.
  assert (Hval : forall t, In t (map fst pieces) ->
            binaryToLong cs t = big_endian_value t /\
            0 <= big_endian_value t <= 1 /\
            longToBinary (big_endian_value t)
              (Int.of_size (Z.of_nat (String.length t))) = t).
  { intros t Ht. destruct (Hsmall t Ht) as (Hb & Hl & Hv).
    pose proof (big_endian_value_bound t) as [Hv0 _].
    split; [|split; [lia|]].
    - apply binaryToLong_value; [exact Hb|]. unfold LL.max_ll, LL.half. lia.
    - rewrite of_size_width by exact Hl. now apply longToBinary_of_value. }
  rewrite encryptHuffmanCodes_tokens, decryptHuffmanCodes_tokens.
  rewrite (tokens_join pieces lead Hlead Hwf).
  rewrite <- (map_id (map fst pieces)) at 2 4.
  split; apply (fold_tokens_words _ (fun t => t)); intros t Ht;
    destruct (Hval t Ht) as (Hbl & Hv & Hback).
  - unfold encryptHuffmanCodes_body. rewrite Hbl.
    rewrite encrypt_value by assumption. cbn [bind].
    rewrite small_power, Z.rem_small, Hback by lia. reflexivity.
  - unfold encryptHuffmanCodes_body, decryptHuffmanCodes_body. rewrite Hbl.
    unfold decrypt. rewrite modPow_spec;
      try (unfold drawn in *; unfold LL.max_ll, LL.half; nia); try assumption.
    cbn [bind]. rewrite small_power, Z.rem_small, Hback by lia. reflexivity.
Qed.

Lemma codes_of_value_0_or_1_stay_in_clear_witness :
  encryptHuffmanCodes true (mkRSA 101 103 10403 10200 65537 10073)
    ("" ++ join [("0", "  "); ("01", " "); ("000", " "); ("1", "")]) =
  Ret (space_terminated
         (map fst [("0", "  "); ("01", " "); ("000", " "); ("1", "")])) /\
  decryptHuffmanCodes true (mkRSA 101 103 10403 10200 65537 10073)
    ("" ++ join [("0", "  "); ("01", " "); ("000", " "); ("1", "")]) =
  Ret (space_terminated
         (map fst [("0", "  "); ("01", " "); ("000", " "); ("1", "")])).
Proof.
  apply (codes_of_value_0_or_1_stay_in_clear true 101 103 _
           "" [("0", "  "); ("01", " "); ("000", " "); ("1", "")]
           drawn_101 drawn_103 built_101_103).
  - reflexivity.
  - simpl. unfold is_token, blank.
    repeat split; (discriminate || reflexivity).
  - repeat (apply Forall_cons;
            [split; [reflexivity|split; [simpl; lia|simpl; lia]]|]).
    apply Forall_nil.
Defined.

(** ** Composition *)

Lemma encryptString_loop_result cs k message : forall result,
  encryptString_loop cs k message result =
  (r <- encryptString_loop cs k message "" ;; Ret (result ++ r)).
Proof.
  induction message as [|c rest IH]; intros result.
  - simpl. now rewrite append_nil_r.
  - cbn [encryptString_loop].
    destruct (encrypt k (char_to_ll cs c)) as [z|f]; [|reflexivity].
    cbn [bind append]. rewrite IH. rewrite (IH (to_string z ++ space)).
    destruct (encryptString_loop cs k rest "") as [r|f]; [|reflexivity].
    cbn [bind]. now rewrite append_assoc.
Qed.

(** X14.  [encryptString] works character by character, for any key: the
    ciphertext of a concatenation is the concatenation of the ciphertexts,
    and the first failing character decides the failure. *)
Theorem encryptString_append cs k s1 s2 :
  encryptString cs k (s1 ++ s2) =
  (c1 <- encryptString cs k s1 ;; c2 <- encryptString cs k s2 ;; Ret (c1 ++ c2)).
Proof.
  unfold encryptString. induction s1 as [|c s1 IH].
  - cbn [append encryptString_loop bind].
    destruct (encryptString_loop cs k s2 "") as [r|f]; reflexivity.
  - cbn [append encryptString_loop].
    destruct (encrypt k (char_to_ll cs c)) as [z|f]; [|reflexivity].
    cbn [bind append].
    rewrite encryptString_loop_result, IH.
    rewrite (encryptString_loop_result cs k s1 (to_string z ++ space)).
    destruct (encryptString_loop cs k s1 "") as [r1|f]; [|reflexivity].
    cbn [bind].
    destruct (encryptString_loop cs k s2 "") as [r2|f]; [|reflexivity].
    cbn [bind]. now rewrite !append_assoc.
Qed.

(** The tokens of a string, read off its first character. *)
Lemma tokens_cons c r :
  tokens (String c r) =
  if isspace c then tokens r
  else if starts_blank r then String c "" :: tokens r
  else match tokens r with
       | t :: ts => String c t :: ts
       | [] => [String c ""]
       end.
Proof.
  rewrite (tokens_unfold (String c r)). unfold extract. cbn [skip_ws].
  destruct (isspace c) eqn:Ec.
  - rewrite (tokens_unfold r). reflexivity.
  - cbn [read_word]. rewrite Ec.
    destruct r as [|c' r1]; [reflexivity|].
    cbn [starts_blank]. destruct (isspace c') eqn:Ec'.
    + cbn [read_word]. rewrite Ec'. reflexivity.
    + rewrite (tokens_unfold (String c' r1)). unfold extract.
      cbn [skip_ws]. rewrite Ec'.
      destruct (read_word (String c' r1)) as [w r']. reflexivity.
Qed.

Lemma tokens_nonempty c r : isspace c = false -> tokens (String c r) <> [].
Proof.
  intros Ec. rewrite tokens_cons, Ec.
  destruct (starts_blank r); [discriminate|].
  destruct (tokens r); discriminate.
Qed.

Lemma tokens_app c1 c2 :
  ends_blank c1 = true ->
  tokens (c1 ++ c2) = (tokens c1 ++ tokens c2)%list.
Proof.
  induction c1 as [|c r IH]; intros Hend.
  - cbn [append]. now rewrite (tokens_blank "") by reflexivity.
  - cbn [append]. rewrite !tokens_cons.
    destruct (isspace c) eqn:Ec.
    + apply IH. destruct r; [reflexivity|exact Hend].
    + destruct r as [|c' r1]; [simpl in Hend; congruence|].
      assert (Hr : ends_blank (String c' r1) = true) by exact Hend.
      rewrite (IH Hr). cbn [append starts_blank].
      destruct (isspace c') eqn:Ec'; [reflexivity|].
      pose proof (tokens_nonempty c' r1 Ec') as Hne.
      destruct (tokens (String c' r1)); [congruence|reflexivity].
Qed.

Lemma fold_tokens_result body ts : forall result,
  fold_tokens body ts result =
  (r <- fold_tokens body ts "" ;; Ret (result ++ r)).
Proof.
  induction ts as [|t ts IH]; intros result.
  - simpl. now rewrite append_nil_r.
  - cbn [fold_tokens]. destruct (body t) as [piece|f]; [|reflexivity].
    cbn [bind append]. rewrite IH, (IH piece).
    destruct (fold_tokens body ts "") as [r|f]; [|reflexivity].
    cbn [bind]. now rewrite append_assoc.
Qed.

Lemma fold_tokens_app body l1 l2 :
  fold_tokens body (l1 ++ l2)%list "" =
  (a <- fold_tokens body l1 "" ;; b <- fold_tokens body l2 "" ;; Ret (a ++ b)).
Proof.
  induction l1 as [|t l1 IH].
  - cbn [List.app fold_tokens bind].
    destruct (fold_tokens body l2 "") as [r|f]; reflexivity.
  - cbn [List.app fold_tokens]. destruct (body t) as [piece|f]; [|reflexivity].
    cbn [bind append]. rewrite fold_tokens_result, IH.
    rewrite (fold_tokens_result body l1 piece).
    destruct (fold_tokens body l1 "") as [r1|f]; [|reflexivity].
    cbn [bind].
    destruct (fold_tokens body l2 "") as [r2|f]; [|reflexivity].
    cbn [bind]. now rewrite !append_assoc.
Qed.

(** X15.  The three functions that read a stream work token by token, for
    any key: when the first part of the input is empty or ends with white
    space, the result on a concatenation is the concatenation of the
    results, and the first failing token decides the failure. *)
Theorem stream_functions_append cs k c1 c2 :
  ends_blank c1 = true ->
  decryptString k (c1 ++ c2) =
  (a <- decryptString k c1 ;; b <- decryptString k c2 ;; Ret (a ++ b)) /\
  encryptHuffmanCodes cs k (c1 ++ c2) =
  (a <- encryptHuffmanCodes cs k c1 ;;
   b <- encryptHuffmanCodes cs k c2 ;; Ret (a ++ b)) /\
  decryptHuffmanCodes cs k (c1 ++ c2) =
  (a <- decryptHuffmanCodes cs k c1 ;;
   b <- decryptHuffmanCodes cs k c2 ;; Ret (a ++ b)).
Proof.
  intros Hend. split; [|split].
  - rewrite (decryptString_tokens k (c1 ++ c2)), (decryptString_tokens k c1),
      (decryptString_tokens k c2), (tokens_app c1 c2 Hend).
    apply fold_tokens_app.
  - rewrite (encryptHuffmanCodes_tokens cs k (c1 ++ c2)),
      (encryptHuffmanCodes_tokens cs k c1),
      (encryptHuffmanCodes_tokens cs k c2), (tokens_app c1 c2 Hend).
    apply fold_tokens_app.
  - rewrite (decryptHuffmanCodes_tokens cs k (c1 ++ c2)),
      (decryptHuffmanCodes_tokens cs k c1),
      (decryptHuffmanCodes_tokens cs k c2), (tokens_app c1 c2 Hend).
    apply fold_tokens_app.
Qed.

Lemma stream_functions_append_witness :
  decryptString (mkRSA 101 103 10403 10200 65537 10073) ("7347 202 " ++ "3065") =
  (a <- decryptString (mkRSA 101 103 10403 10200 65537 10073) "7347 202 " ;;
   b <- decryptString (mkRSA 101 103 10403 10200 65537 10073) "3065" ;;
   Ret (a ++ b)) /\
  encryptHuffmanCodes true (mkRSA 101 103 10403 10200 65537 10073)
    ("7347 202 " ++ "3065") =
  (a <- encryptHuffmanCodes true (mkRSA 101 103 10403 10200 65537 10073)
          "7347 202 " ;;
   b <- encryptHuffmanCodes true (mkRSA 101 103 10403 10200 65537 10073)
          "3065" ;;
   Ret (a ++ b)) /\
  decryptHuffmanCodes true (mkRSA 101 103 10403 10200 65537 10073)
    ("7347 202 " ++ "3065") =
  (a <- decryptHuffmanCodes true (mkRSA 101 103 10403 10200 65537 10073)
          "7347 202 " ;;
   b <- decryptHuffmanCodes true (mkRSA 101 103 10403 10200 65537 10073)
          "3065" ;;
   Ret (a ++ b)).
Proof.
  apply (stream_functions_append true
           (mkRSA 101 103 10403 10200 65537 10073) "7347 202 " "3065").
  reflexivity.
Defined.

(** ** Edge behaviour of [modPow] and of the codec *)

(** X16.  [modPow] outside its intended use: with a positive modulus it
    returns a value for every base and every exponent, overflowing products
    included, so the loop always ends; an exponent [exp <= 0] gives [1]
    whatever the base and the modulus, also for the modulus [1]; the
    modulus [0] is a division by zero before the loop starts. *)
Theorem modPow_edge_cases base exp mod_ :
  LL.in_range exp ->
  (0 < mod_ -> returns (modPow base exp mod_)) /\
  (0 < mod_ -> exp <= 0 -> modPow base exp mod_ = Ret 1) /\
  (mod_ = 0 -> modPow base exp mod_ = Fail DivisionByZero).
Proof.
  intros [_ He]. split; [|split].
  - intros Hm. unfold modPow. rewrite rem_pos_divisor by exact Hm.
    cbn [bind]. change 64%nat with (S 63).
    apply modPow_loop_returns; [exact Hm|].
    unfold LL.max_ll, LL.half in He. change (Z.of_nat 63) with 63. lia.
  - intros Hm Hexp. unfold modPow. rewrite rem_pos_divisor by exact Hm.
    cbn [bind modPow_loop]. destruct (Z.ltb_spec 0 exp); [lia|reflexivity].
  - intros ->. reflexivity.
Qed.

Lemma modPow_edge_cases_witness :
  (0 < 4611686018427387904 ->
   returns (modPow 3037000500 65537 4611686018427387904)) /\
  (0 < 4611686018427387904 -> 65537 <= 0 ->
   modPow 3037000500 65537 4611686018427387904 = Ret 1) /\
  (4611686018427387904 = 0 ->
   modPow 3037000500 65537 4611686018427387904 = Fail DivisionByZero).
Proof.
  apply (modPow_edge_cases 3037000500 65537 4611686018427387904).
  unfold LL.in_range, LL.min_ll, LL.max_ll, LL.half. lia.
Defined.

(** X17.  At the full width of 64 the codec loses nothing: every
    [long long], negative ones included, is written by [longToBinary] as
    its 64 two's-complement digits and read back by [binaryToLong]. *)
Theorem codec_lossless_at_width_64 cs num :
  LL.in_range num ->
  String.length (longToBinary num 64) = 64%nat /\
  (forall j, (j < 64)%nat ->
     String.get j (longToBinary num 64) =
     Some (bit_char (Z.testbit num (Z.of_nat (63 - j))))) /\
  binaryToLong cs (longToBinary num 64) = num.
Proof.
  intros Hnum. unfold longToBinary. change (Z.to_nat 64) with 64%nat.
  split; [apply longToBinary_length|]. split.
  - intros j Hj. rewrite longToBinary_get by lia. reflexivity.
  - unfold binaryToLong. rewrite binaryToLong_loop_wraps;
      [|apply longToBinary_binary|unfold LL.in_range, LL.min_ll, LL.max_ll, LL.half; lia].
    rewrite longToBinary_length, longToBinary_value by lia.
    rewrite <- (wrap_in_range num Hnum) at 2. apply wrap_congruent.
    pose proof (Z.div_mod num (2 ^ Z.of_nat 64) ltac:(simpl; lia)) as Hdm.
    exists (- (num / 2 ^ Z.of_nat 64)).
    change (2 ^ Z.of_nat 64) with (2 ^ 64) in *. lia.
Qed.

Lemma codec_lossless_at_width_64_witness :
  String.length (longToBinary (-2) 64) = 64%nat /\
  (forall j, (j < 64)%nat ->
     String.get j (longToBinary (-2) 64) =
     Some (bit_char (Z.testbit (-2) (Z.of_nat (63 - j))))) /\
  binaryToLong true (longToBinary (-2) 64) = -2.
Proof.
  apply (codec_lossless_at_width_64 true (-2)).
  unfold LL.in_range, LL.min_ll, LL.max_ll, LL.half. lia.
Defined.
